(** * The Cadence testing framework: matchers and the [Blockchain] façade

    A shallow embedding of the Cadence code published in
    [src/content/testing-framework.mdx]: the [Matcher] struct with its
    [and]/[or] combinators, the result and transaction structs, the
    [BlockchainBackend] interface and the [Blockchain] struct that forwards
    to it.

    The façade is embedded as programs over the calls of the backend
    interface; a backend is a handler of those calls over its own state.
    The emulator backend, [Test.assertEqual] and the Cadence value universe
    are not part of the published code; they are modelled from the
    documentation and marked as such. *)

From Stdlib Require Import ZArith Lia.
From stdpp Require Import base decidable option list strings gmap.

#[local] Set Warnings "-register-all".

Local Open Scope Z_scope.
Local Open Scope list_scope.

(** ** Cadence values ([AnyStruct]) *)

(** The integer types of Cadence. *)
Inductive IntegerKind : Type :=
| Int | Int8 | Int16 | Int32 | Int64 | Int128 | Int256
| UInt | UInt8 | UInt16 | UInt32 | UInt64 | UInt128 | UInt256.

(** Run-time types, as returned by [getType()] and passed to
    [eventsOfType]. *)
Inductive Ty : Type :=
| TBool
| TString
| TInteger (k : IntegerKind)
| TAddress
| TNever
| TOptional (t : Ty)
| TArray (t : Ty)
| TComposite (identifier : string).

(** Modelled from the spec: the values of [AnyStruct] are outside the
    published code.  This is the fragment the documentation's examples
    are written in, dictionaries apart: booleans, strings, integers,
    addresses, optionals, arrays and composites.  Every value carries its
    declared type: an integer its integer type, an array its element type,
    a composite (struct or event) its qualified identifier. *)
Inductive Value : Type :=
| VBool (b : bool)
| VString (s : string)
| VInteger (k : IntegerKind) (n : Z)
| VAddress (a : Z)
| VNil
| VSome (v : Value)
| VArray (t : Ty) (elements : list Value)
| VComposite (identifier : string) (fields : list (string * Value)).

Definition Address : Type := Z.

#[global] Instance IntegerKind_eq_dec : EqDecision IntegerKind.
Proof. solve_decision. Defined.

#[global] Instance Ty_eq_dec : EqDecision Ty.
Proof. solve_decision. Defined.

Fixpoint getType (v : Value) : Ty :=
  match v with
  | VBool _ => TBool
  | VString _ => TString
  | VInteger k _ => TInteger k
  | VAddress _ => TAddress
  | VNil => TOptional TNever
  | VSome w => TOptional (getType w)
  | VArray t _ => TArray t
  | VComposite i _ => TComposite i
  end.

(** The number an integer value denotes, whatever its type. *)
Definition numeral (v : Value) : option Z :=
  match v with
  | VInteger _ n => Some n
  | _ => None
  end.

(** Equality of typed values, the [==] of Cadence on [AnyStruct]. *)
Fixpoint value_eqb (a b : Value) {struct a} : bool :=
  match a, b with
  | VBool x, VBool y => bool_decide (x = y)
  | VString x, VString y => bool_decide (x = y)
  | VInteger k x, VInteger l y => bool_decide (k = l) && bool_decide (x = y)
  | VAddress x, VAddress y => bool_decide (x = y)
  | VNil, VNil => true
  | VSome x, VSome y => value_eqb x y
  | VArray t xs, VArray u ys =>
      bool_decide (t = u) &&
      (fix go (xs ys : list Value) {struct xs} : bool :=
         match xs, ys with
         | [], [] => true
         | x :: xs', y :: ys' => value_eqb x y && go xs' ys'
         | _, _ => false
         end) xs ys
  | VComposite i fs, VComposite j gs =>
      bool_decide (i = j) &&
      (fix go (fs gs : list (string * Value)) {struct fs} : bool :=
         match fs, gs with
         | [], [] => true
         | (n, x) :: fs', (m, y) :: gs' =>
             bool_decide (n = m) && value_eqb x y && go fs' gs'
         | _, _ => false
         end) fs gs
  | _, _ => false
  end.

(** ** Failures and results of evaluation *)

(** How an evaluation aborts: a force-unwrap [!] of [nil], a failure
    reported by the backend, a [panic], or a failed equality assertion. *)
Inductive Failure : Type :=
| ForceUnwrapNil
| BackendFailure (msg : string)
| Panic (msg : string)
| NotEqual (expected actual : Value).

Inductive Result (A : Type) : Type :=
| Ok (a : A)
| Abort (f : Failure).
Arguments Ok {A} a.
Arguments Abort {A} f.

Definition is_abort {A} (r : Result A) : bool :=
  match r with
  | Ok _ => false
  | Abort _ => true
  end.

Definition result_map {A B} (f : A → B) (r : Result A) : Result B :=
  match r with
  | Ok a => Ok (f a)
  | Abort e => Abort e
  end.

(** A Cadence function evaluated in a world [W] (the interpreter state its
    closure reads and writes): it returns a value or aborts, and leaves a
    world behind. *)
Definition Eval (W A : Type) : Type := W → Result A * W.

Definition eval_ret {W A} (a : A) : Eval W A := λ w, (Ok a, w).

Definition eval_bind {W A B} (m : Eval W A) (f : A → Eval W B) : Eval W B :=
  λ w,
    match m w with
    | (Ok a, w') => f a w'
    | (Abort e, w') => (Abort e, w')
    end.

(** The logical operators of Cadence evaluate their right operand only
    when the left one does not decide the result. *)
Definition eval_and {W} (l r : Eval W bool) : Eval W bool :=
  eval_bind l (λ b, if b then r else eval_ret false).

Definition eval_or {W} (l r : Eval W bool) : Eval W bool :=
  eval_bind l (λ b, if b then eval_ret true else r).

(** ** Matchers *)

Module Matcher.

Record t (W : Type) : Type := Matcher { test : Value → Eval W bool }.
Arguments Matcher {W} test.
Arguments test {W} _ _ _.

(** [fun and(_ other: Matcher): Matcher] *)
Definition and {W} (self other : t W) : t W :=
  Matcher (λ value, eval_and (test self value) (test other value)).

(** [fun or(_ other: Matcher): Matcher] *)
Definition or {W} (self other : t W) : t W :=
  Matcher (λ value, eval_or (test self value) (test other value)).

End Matcher.

(** ** Assertions *)

Module Test.

(** Modelled from the spec: [Test.assertEqual] is published as a signature
    only.  It fails the test case when the two values are not equal, and
    two values are equal only when they have exactly the same type. *)
Definition assertEqual (expected actual : Value) : Result unit :=
  if value_eqb expected actual then Ok tt else Abort (NotEqual expected actual).

End Test.

(** ** The structs of the [Test] contract *)

Module Error.
Record t : Type := init { message : string }.
End Error.

Inductive ResultStatus : Type := succeeded | failed.

Module ScriptResult.
Record t : Type := init {
  status : ResultStatus;
  returnValue : option Value;
  error : option Error.t
}.
End ScriptResult.

Module TransactionResult.
Record t : Type := init {
  status : ResultStatus;
  error : option Error.t
}.
End TransactionResult.

Module Account.
Record t : Type := init {
  address : Address;
  publicKey : list Z
}.
End Account.

Module Transaction.
Record t : Type := init {
  code : string;
  authorizers : list Address;
  signers : list Account.t;
  arguments : list Value
}.
End Transaction.

Module Configuration.
Record t : Type := init { addresses : gmap string Address }.
End Configuration.

(** ** The number types of the interface *)

(** [UInt64]: an integer from 0 to 2^64 - 1. *)
Module UInt64.
Record t : Type := make {
  value : Z;
  in_range : (0 <=? value) && (value <? 2 ^ 64) = true
}.
End UInt64.

(** [Fix64]: a signed 64-bit fixed-point number with eight decimals; [raw]
    is the number times 100000000, so -1.5 has [raw = -150000000]. *)
Module Fix64.
Record t : Type := make {
  raw : Z;
  in_range : (- 2 ^ 63 <=? raw) && (raw <? 2 ^ 63) = true
}.
End Fix64.

(** ** The [BlockchainBackend] interface *)

(** One constructor per function of the interface. *)
Inductive Call : Type :=
| ExecuteScript (script : string) (arguments : list Value)
| CreateAccount
| AddTransaction (tx : Transaction.t)
| ExecuteNextTransaction
| CommitBlock
| DeployContract (name code : string) (account : Account.t)
                 (arguments : list Value)
| UseConfiguration (configuration : Configuration.t)
| Logs
| ServiceAccount
| Events (type : option Ty)
| Reset (height : UInt64.t)
| MoveTime (delta : Fix64.t).

(** The return type the interface declares for each function. *)
Definition response (c : Call) : Type :=
  match c with
  | ExecuteScript _ _ => ScriptResult.t
  | CreateAccount => Account.t
  | AddTransaction _ => unit
  | ExecuteNextTransaction => option TransactionResult.t
  | CommitBlock => unit
  | DeployContract _ _ _ _ => option Error.t
  | UseConfiguration _ => unit
  | Logs => list string
  | ServiceAccount => Account.t
  | Events _ => list Value
  | Reset _ => unit
  | MoveTime _ => unit
  end.

(** Code written against the interface: it returns, aborts, or calls the
    backend and goes on with the answer. *)
Inductive Prog (A : Type) : Type :=
| Ret (a : A)
| Throw (f : Failure)
| Invoke (c : Call) (k : response c → Prog A).
Arguments Ret {A} a.
Arguments Throw {A} f.
Arguments Invoke {A} c k.

Fixpoint bind {A B} (p : Prog A) (f : A → Prog B) : Prog B :=
  match p with
  | Ret a => f a
  | Throw e => Throw e
  | Invoke c k => Invoke c (λ x, bind (k x) f)
  end.

#[global] Instance Prog_ret : MRet Prog := @Ret.
#[global] Instance Prog_bind : MBind Prog := λ A B f p, bind p f.

Definition call (c : Call) : Prog (response c) := Invoke c Ret.

(** The force-unwrap operator [!]. *)
Definition unwrap {A} (o : option A) : Prog A :=
  match o with
  | Some a => Ret a
  | None => Throw ForceUnwrapNil
  end.

(** [for x in l { body }], with the variables the body assigns threaded
    through as [st]. *)
Fixpoint forIn {A St} (l : list A) (body : A → St → Prog St) (st : St)
  : Prog St :=
  match l with
  | [] => Ret st
  | x :: rest => st' ← body x st; forIn rest body st'
  end.

(** ** The [Blockchain] struct *)

Module Blockchain.

Definition executeScript (script : string) (arguments : list Value)
  : Prog ScriptResult.t :=
  call (ExecuteScript script arguments).

Definition createAccount : Prog Account.t := call CreateAccount.

Definition addTransaction (tx : Transaction.t) : Prog unit :=
  call (AddTransaction tx).

Definition executeNextTransaction : Prog (option TransactionResult.t) :=
  call ExecuteNextTransaction.

Definition commitBlock : Prog unit := call CommitBlock.

Definition executeTransaction (tx : Transaction.t)
  : Prog TransactionResult.t :=
  addTransaction tx;;
  txResult ← executeNextTransaction ≫= unwrap;
  commitBlock;;
  mret txResult.

Definition executeTransactions (transactions : list Transaction.t)
  : Prog (list TransactionResult.t) :=
  forIn transactions (λ tx _, addTransaction tx) tt;;
  results ← forIn transactions
              (λ _ results,
                 txResult ← executeNextTransaction ≫= unwrap;
                 mret (results ++ [txResult]))
              [];
  commitBlock;;
  mret results.

Definition deployContract (name code : string) (account : Account.t)
    (arguments : list Value) : Prog (option Error.t) :=
  call (DeployContract name code account arguments).

Definition useConfiguration (configuration : Configuration.t) : Prog unit :=
  call (UseConfiguration configuration).

Definition logs : Prog (list string) := call Logs.

Definition serviceAccount : Prog Account.t := call ServiceAccount.

Definition events : Prog (list Value) := call (Events None).

Definition eventsOfType (type : Ty) : Prog (list Value) :=
  call (Events (Some type)).

Definition reset (height : UInt64.t) : Prog unit := call (Reset height).

Definition moveTime (delta : Fix64.t) : Prog unit := call (MoveTime delta).

(** The composition the specification equates [executeTransaction] with:
    [addTransaction; executeNextTransaction; commitBlock], returning what
    the middle step produced. *)
Definition executeTransaction_spec (tx : Transaction.t)
  : Prog (option TransactionResult.t) :=
  addTransaction tx;;
  produced ← executeNextTransaction;
  commitBlock;;
  mret produced.

End Blockchain.

(** ** Running a program against a backend *)

(** What a backend does with a call: it answers or it fails. *)
Inductive Reply (X : Type) : Type :=
| Returns (x : X)
| Fails (msg : string).
Arguments Returns {X} x.
Arguments Fails {X} msg.

(** A backend over its state [S] implements every function of the
    interface. *)
Definition Backend (S : Type) : Type := ∀ c : Call, S → Reply (response c) * S.

(** A run ends with a result and a backend state, having issued [calls] to
    the backend in that order. *)
Record Outcome (S A : Type) : Type := outcome {
  result : Result A;
  final : S;
  calls : list Call
}.
Arguments outcome {S A} result final calls.
Arguments result {S A} _.
Arguments final {S A} _.
Arguments calls {S A} _.

Fixpoint run {S A} (backend : Backend S) (p : Prog A) (s : S) : Outcome S A :=
  match p with
  | Ret a => outcome (Ok a) s []
  | Throw e => outcome (Abort e) s []
  | Invoke c k =>
      match backend c s with
      | (Returns x, s') =>
          let o := run backend (k x) s' in
          outcome (result o) (final o) (c :: calls o)
      | (Fails msg, s') => outcome (Abort (BackendFailure msg)) s' [c]
      end
  end.

Definition outcome_map {S A B} (f : A → B) (o : Outcome S A) : Outcome S B :=
  outcome (result_map f (result o)) (final o) (calls o).

(** ** The emulator backend *)

Module Emulator.

(** The transactions executed in a block, each with its result. *)
Definition Block : Type := list (Transaction.t * TransactionResult.t).

(** Modelled from the spec: the state of the emulated ledger behind
    [Test.newEmulatorBlockchain()], which is not published code.  The
    pending block is [executed] (its transactions already run, oldest
    first) followed by [queue] (added, not yet executed, oldest first);
    [committed] holds the finalized blocks, [emitted] and [logged] every
    event and log line since creation. *)
Record State (L : Type) : Type := state {
  ledger : L;
  configuration : Configuration.t;
  committed : list Block;
  executed : Block;
  queue : list Transaction.t;
  emitted : list Value;
  logged : list string
}.
Arguments state {L} _ _ _ _ _ _ _.
Arguments ledger {L} _.
Arguments configuration {L} _.
Arguments committed {L} _.
Arguments executed {L} _.
Arguments queue {L} _.
Arguments emitted {L} _.
Arguments logged {L} _.

(** What running one transaction does. *)
Record Effect (L : Type) : Type := effect {
  failure : option Error.t;
  ledger_after : L;
  events_emitted : list Value;
  lines_logged : list string
}.
Arguments effect {L} _ _ _ _.
Arguments failure {L} _.
Arguments ledger_after {L} _.
Arguments events_emitted {L} _.
Arguments lines_logged {L} _.

(** The Cadence runtime the emulator drives, over its ledger [L]: how a
    script and a transaction execute (an execution error is captured as an
    [Error], not propagated), and the interface functions whose behaviour
    the documentation leaves to the emulator. *)
Record Runtime (L : Type) : Type := runtime {
  run_script :
    string → list Value → Configuration.t → L →
    (option Value + Error.t) * list string;
  run_transaction : Transaction.t → Configuration.t → L → Effect L;
  other : ∀ c : Call, State L → Reply (response c) * State L
}.
Arguments runtime {L} _ _ _.
Arguments run_script {L} _ _ _ _ _.
Arguments run_transaction {L} _ _ _ _.
Arguments other {L} _ _ _.

(** Modelled from the spec: a script result is a success with an optional
    return value, or a failure with its error. *)
Definition script_result (o : option Value + Error.t) : ScriptResult.t :=
  match o with
  | inl v => ScriptResult.init succeeded v None
  | inr e => ScriptResult.init failed None (Some e)
  end.

(** Modelled from the spec: a transaction result is a success, or a failure
    with its error. *)
Definition transaction_result (e : option Error.t) : TransactionResult.t :=
  match e with
  | None => TransactionResult.init succeeded None
  | Some err => TransactionResult.init failed (Some err)
  end.

Section WithRuntime.
Context {L : Type} (rt : Runtime L).

(** Modelled from the spec: [executeScript] runs the script against the
    ledger without changing the block state; its log lines are kept. *)
Definition executeScript (script : string) (arguments : list Value)
    (s : State L) : Reply ScriptResult.t * State L :=
  let '(o, lines) := run_script rt script arguments (configuration s) (ledger s) in
  (Returns (script_result o),
   state (ledger s) (configuration s) (committed s) (executed s) (queue s)
         (emitted s) (logged s ++ lines)).

(** Modelled from the spec: [addTransaction] enqueues into the pending
    block and executes nothing. *)
Definition addTransaction (tx : Transaction.t) (s : State L)
  : Reply unit * State L :=
  (Returns tt,
   state (ledger s) (configuration s) (committed s) (executed s)
         (queue s ++ [tx]) (emitted s) (logged s)).

(** Modelled from the spec: [executeNextTransaction] executes the oldest
    enqueued transaction and returns its result, or [nil] when none is
    scheduled. *)
Definition executeNextTransaction (s : State L)
  : Reply (option TransactionResult.t) * State L :=
  match queue s with
  | [] => (Returns None, s)
  | tx :: rest =>
      let e := run_transaction rt tx (configuration s) (ledger s) in
      let r := transaction_result (failure e) in
      (Returns (Some r),
       state (ledger_after e) (configuration s) (committed s)
             (executed s ++ [(tx, r)]) rest
             (emitted s ++ events_emitted e) (logged s ++ lines_logged e))
  end.

(** Modelled from the spec: [commitBlock] finalizes the pending block; it
    fails, and the block stays pending, when a transaction of the block
    has not been executed. *)
Definition commitBlock (s : State L) : Reply unit * State L :=
  match queue s with
  | [] =>
      (Returns tt,
       state (ledger s) (configuration s) (committed s ++ [executed s]) []
             [] (emitted s) (logged s))
  | _ :: _ =>
      (Fails "pending block cannot be committed before execution", s)
  end.

(** Modelled from the spec: [useConfiguration] replaces the table that
    resolves import locations. *)
Definition useConfiguration (c : Configuration.t) (s : State L)
  : Reply unit * State L :=
  (Returns tt,
   state (ledger s) c (committed s) (executed s) (queue s) (emitted s)
         (logged s)).

(** Modelled from the spec: [events(type)] returns the events emitted so
    far, in order; with a type, those of that type only. *)
Definition events (type : option Ty) (s : State L)
  : Reply (list Value) * State L :=
  match type with
  | None => (Returns (emitted s), s)
  | Some t => (Returns (filter (λ e, getType e = t) (emitted s)), s)
  end.

Definition logs (s : State L) : Reply (list string) * State L :=
  (Returns (logged s), s).

(** The emulator as an implementation of the interface. *)
Definition backend : Backend (State L) :=
  λ c,
    match c as c' return State L → Reply (response c') * State L with
    | ExecuteScript script arguments => executeScript script arguments
    | AddTransaction tx => addTransaction tx
    | ExecuteNextTransaction => executeNextTransaction
    | CommitBlock => commitBlock
    | UseConfiguration c => useConfiguration c
    | Logs => logs
    | Events type => events type
    | CreateAccount => other rt CreateAccount
    | DeployContract n c a args => other rt (DeployContract n c a args)
    | ServiceAccount => other rt ServiceAccount
    | Reset h => other rt (Reset h)
    | MoveTime d => other rt (MoveTime d)
    end.

(** The state after the transactions [txs] were added. *)
Definition enqueue (txs : list Transaction.t) (s : State L) : State L :=
  state (ledger s) (configuration s) (committed s) (executed s)
        (queue s ++ txs) (emitted s) (logged s).

(** The state after [n] calls of [executeNextTransaction]. *)
Fixpoint drain (n : nat) (s : State L) : State L :=
  match n with
  | O => s
  | S m => drain m (snd (executeNextTransaction s))
  end.

(** Every transaction executed so far, oldest first, with its result. *)
Definition history (s : State L) : Block := concat (committed s) ++ executed s.

(** Running the transactions [txs] one after the other from ledger [l]. *)
Fixpoint batch (c : Configuration.t) (l : L) (txs : list Transaction.t)
  : Block :=
  match txs with
  | [] => []
  | tx :: rest =>
      let e := run_transaction rt tx c l in
      (tx, transaction_result (failure e)) :: batch c (ledger_after e) rest
  end.

(** The ledger those transactions leave behind. *)
Fixpoint ledger_of (c : Configuration.t) (l : L) (txs : list Transaction.t)
  : L :=
  match txs with
  | [] => l
  | tx :: rest => ledger_of c (ledger_after (run_transaction rt tx c l)) rest
  end.

End WithRuntime.

End Emulator.

(** ** Well-formed results *)

(** A script result is a success without an error, or a failure with an
    error and without a return value. *)
Definition ScriptResult_wf (r : ScriptResult.t) : Prop :=
  (ScriptResult.status r = succeeded ∧ ScriptResult.error r = None) ∨
  (ScriptResult.status r = failed ∧ ScriptResult.error r ≠ None ∧
   ScriptResult.returnValue r = None).

(** A transaction result is a success without an error, or a failure with
    an error. *)
Definition TransactionResult_wf (r : TransactionResult.t) : Prop :=
  (TransactionResult.status r = succeeded ∧ TransactionResult.error r = None) ∨
  (TransactionResult.status r = failed ∧ TransactionResult.error r ≠ None).

(** ** Call sequences *)

(** The calls a batch of transactions is expected to issue: every
    transaction is added, then as many are executed, then the block is
    committed once. *)
Definition batch_calls (txs : list Transaction.t) : list Call :=
  (AddTransaction <$> txs) ++
  replicate (length txs) ExecuteNextTransaction ++ [CommitBlock].

(** The interface functions the emulator model specifies itself. *)
Definition specified (c : Call) : bool :=
  match c with
  | CreateAccount | DeployContract _ _ _ _ | ServiceAccount
  | Reset _ | MoveTime _ => false
  | _ => true
  end.

(** The block state machine of the specification, read off the calls: the
    number of transactions added and not yet executed, starting from [n]
    of them. *)
Fixpoint unexecuted (cs : list Call) (n : nat) : nat :=
  match cs with
  | [] => n
  | AddTransaction _ :: rest => unexecuted rest (S n)
  | ExecuteNextTransaction :: rest => unexecuted rest (pred n)
  | _ :: rest => unexecuted rest n
  end.

(** A backend keeps a pending block when some count [pending] of its
    state behaves as the number of transactions added and not yet executed:
    [addTransaction] raises it by one, [executeNextTransaction] finds a
    transaction whenever it is not zero and lowers it by one. *)
Definition keeps_pending_block {S} (h : Backend S) (pending : S → nat) : Prop :=
  (∀ tx s s', h (AddTransaction tx) s = (Returns tt, s') →
              pending s' = Datatypes.S (pending s)) ∧
  (∀ s s', pending s ≠ 0%nat →
           h ExecuteNextTransaction s ≠ (Returns None, s')) ∧
  (∀ s r s', h ExecuteNextTransaction s = (Returns r, s') →
             pending s' = pred (pending s)).

(** ** Sample data *)

Module Sample.

(** [sevenOrMore] and [lessThanTen] of the documentation's example for
    [and], over a world that counts the evaluations of test functions. *)
Definition sevenOrMore : Matcher.t nat :=
  Matcher.Matcher
    (λ value w,
       match value with
       | VInteger Int n => (Ok (7 <=? n), S w)
       | _ => (Abort (Panic "not an Int"), S w)
       end).

Definition lessThanTen : Matcher.t nat :=
  Matcher.Matcher
    (λ value w,
       match value with
       | VInteger Int n => (Ok (n <=? 10), S w)
       | _ => (Abort (Panic "not an Int"), S w)
       end).

(** A matcher whose test function always panics. *)
Definition panicking : Matcher.t nat :=
  Matcher.Matcher (λ _ w, (Abort (Panic "evaluated"), S w)).

Definition account : Account.t := Account.init 0x01cf0e2f2f715450 [1; 2; 3].

Definition tx_ok : Transaction.t :=
  Transaction.init "transaction { prepare(acct: &Account) {} execute{} }"
                   [Account.address account] [account] [].

Definition tx_panic : Transaction.t :=
  Transaction.init "transaction { execute{ panic(message) } }"
                   [] [account] [].

Definition default_response (c : Call) : response c :=
  match c with
  | ExecuteScript _ _ => ScriptResult.init succeeded None None
  | CreateAccount => account
  | AddTransaction _ => tt
  | ExecuteNextTransaction => None
  | CommitBlock => tt
  | DeployContract _ _ _ _ => None
  | UseConfiguration _ => tt
  | Logs => []
  | ServiceAccount => account
  | Events _ => []
  | Reset _ => tt
  | MoveTime _ => tt
  end.

(** A backend that schedules nothing: it accepts every call and counts
    them. *)
Definition idle : Backend nat := λ c s, (Returns (default_response c), S s).

(** A backend with one transaction to execute, whatever is added: its
    first [executeNextTransaction] answers a result, the later ones [nil];
    the state tells whether that transaction was executed. *)
Definition once : Backend bool :=
  λ c,
    match c as c' return bool → Reply (response c') * bool with
    | ExecuteNextTransaction =>
        λ s,
          if s then (Returns None, s)
          else (Returns (Some (TransactionResult.init succeeded None)), true)
    | c' => λ s, (Returns (default_response c'), s)
    end.

(** A runtime over a ledger that counts the transactions that succeeded:
    a transaction fails when its code mentions no [prepare] block. *)
Definition toy : Emulator.Runtime Z :=
  Emulator.runtime
    (λ script _ _ l,
       if bool_decide (script = "") then (inr (Error.init "empty script"), [])
       else (inl (Some (VInteger Int l)), ["script"]))
    (λ tx _ l,
       if bool_decide (Transaction.code tx = Transaction.code tx_ok)
       then Emulator.effect None (l + 1)
              [VComposite "A.01cf0e2f2f715450.Foo.Executed" [("n", VInteger Int l)]]
              ["executed"]
       else Emulator.effect (Some (Error.init "some error")) l
              [VComposite "flow.TransactionFailed" []] [])
    (λ c s, (Returns (default_response c), s)).

Definition genesis : Emulator.State Z :=
  Emulator.state 0 (Configuration.init ∅) [] [] [] [] [].

End Sample.

(** ** The documentation's custom matcher *)

(** Subtyping on run-time types, [isSubtype(of:)]: [Never] is below every
    type, [T] is below [T?], optionals and arrays are covariant. *)
Fixpoint isSubtype (t u : Ty) {struct u} : bool :=
  match t with
  | TNever => true
  | _ =>
      match u with
      | TOptional u' =>
          match t with
          | TOptional t' => isSubtype t' u'
          | _ => isSubtype t u'
          end
      | TArray u' =>
          match t with
          | TArray t' => isSubtype t' u'
          | _ => false
          end
      | _ => bool_decide (t = u)
      end
  end.

(** The force-cast [value as! Int]: the integer when the value is an
    [Int], a run-time error otherwise. *)
Definition force_cast_Int {W} (value : Value) : Eval W Z :=
  λ w,
    match value with
    | VInteger Int n => (Ok n, w)
    | _ => (Abort (Panic "unexpectedly found non-Int while force-casting value"), w)
    end.

(** The test function of [testCustomMatcherUntyped]:
    [if !value.getType().isSubtype(of: Type<Int>()) { return false }
     return (value as! Int) > 5]. *)
Definition customMatcherUntyped {W} : Matcher.t W :=
  Matcher.Matcher
    (λ value,
       if negb (isSubtype (getType value) (TInteger Int))
       then eval_ret false
       else eval_bind (force_cast_Int value) (λ n, eval_ret (5 <? n))).

(** A matcher decides the predicate [p] when its test function returns
    [p] of the value and leaves the world as it found it. *)
Definition decides {W} (m : Matcher.t W) (p : Value → bool) : Prop :=
  ∀ v w, Matcher.test m v w = (Ok (p v), w).

(** ** What the backend answered *)

Definition answer_of (c : Call)
  : response c → list (option TransactionResult.t) :=
  match c with
  | ExecuteNextTransaction => λ x, [x]
  | _ => λ _, []
  end.

(** The answers of the backend to the [executeNextTransaction] calls of a
    run, in the order of the calls. *)
Fixpoint answers {S A} (backend : Backend S) (p : Prog A) (s : S)
  : list (option TransactionResult.t) :=
  match p with
  | Ret _ => []
  | Throw _ => []
  | Invoke c k =>
      match backend c s with
      | (Returns x, s') => answer_of c x ++ answers backend (k x) s'
      | (Fails _, _) => []
      end
  end.

(** * Properties *)

(** ** Equality of values *)

Section ValueInduction.
Variable P : Value → Prop.
Hypothesis Hbool : ∀ b, P (VBool b).
Hypothesis Hstring : ∀ s, P (VString s).
Hypothesis Hinteger : ∀ k n, P (VInteger k n).
Hypothesis Haddress : ∀ a, P (VAddress a).
Hypothesis Hnil : P VNil.
Hypothesis Hsome : ∀ v, P v → P (VSome v).
Hypothesis Harray : ∀ t vs, Forall P vs → P (VArray t vs).
Hypothesis Hcomposite :
  ∀ i fs, Forall (λ f, P (snd f)) fs → P (VComposite i fs).

Fixpoint Value_nested_ind (v : Value) : P v :=
  match v with
  | VBool b => Hbool b
  | VString s => Hstring s
  | VInteger k n => Hinteger k n
  | VAddress a => Haddress a
  | VNil => Hnil
  | VSome w => Hsome w (Value_nested_ind w)
  | VArray t vs =>
      Harray t vs
        ((fix all (l : list Value) : Forall P l :=
            match l with
            | [] => @List.Forall_nil _ P
            | x :: r => @List.Forall_cons _ P x r (Value_nested_ind x) (all r)
            end) vs)
  | VComposite i fs =>
      Hcomposite i fs
        ((fix all (l : list (string * Value)) : Forall (λ f, P (snd f)) l :=
            match l with
            | [] => @List.Forall_nil _ _
            | (n, x) :: r =>
                @List.Forall_cons _ (λ f, P (snd f)) (n, x) r
                  (Value_nested_ind x) (all r)
            end) fs)
  end.
End ValueInduction.

Lemma value_eqb_eq (a b : Value) : value_eqb a b = true ↔ a = b.
Proof.
  revert b. induction a as [x|x|k x|x| |x IH|t xs IH|i fs IH]
    using Value_nested_ind; intros b.
  - destruct b; simpl; try (split; [discriminate | congruence]).
    rewrite bool_decide_eq_true. split; congruence.
  - destruct b; simpl; try (split; [discriminate | congruence]).
    rewrite bool_decide_eq_true. split; congruence.
  - destruct b; simpl; try (split; [discriminate | congruence]).
    rewrite andb_true_iff, !bool_decide_eq_true. split; [intros []; congruence | intros [= -> ->]; done].
  - destruct b; simpl; try (split; [discriminate | congruence]).
    rewrite bool_decide_eq_true. split; congruence.
  - destruct b; simpl; split; congruence.
  - destruct b; simpl; try (split; [discriminate | congruence]).
    rewrite IH. split; congruence.
  - destruct b as [| | | | | |u ys|]; simpl;
      try (split; [discriminate | congruence]).
    rewrite andb_true_iff, bool_decide_eq_true.
    enough (Hgo : ∀ ys,
      (fix go (xs ys : list Value) {struct xs} : bool :=
         match xs, ys with
         | [], [] => true
         | x :: xs', y :: ys' => value_eqb x y && go xs' ys'
         | _, _ => false
         end) xs ys = true ↔ xs = ys).
    { rewrite Hgo. split; [intros []; congruence | intros [= -> ->]; done]. }
    clear ys u. induction IH as [|x xs Hx _ IHxs]; intros [|y ys];
      try (split; [discriminate | congruence]); [done|].
    rewrite andb_true_iff, Hx, IHxs. split; [intros []; congruence | intros [= -> ->]; done].
  - destruct b as [| | | | | | |j gs]; simpl;
      try (split; [discriminate | congruence]).
    rewrite andb_true_iff, bool_decide_eq_true.
    enough (Hgo : ∀ gs,
      (fix go (fs gs : list (string * Value)) {struct fs} : bool :=
         match fs, gs with
         | [], [] => true
         | (n, x) :: fs', (m, y) :: gs' =>
             bool_decide (n = m) && value_eqb x y && go fs' gs'
         | _, _ => false
         end) fs gs = true ↔ fs = gs).
    { rewrite Hgo. split; [intros []; congruence | intros [= -> ->]; done]. }
    clear gs j. induction IH as [|[n x] fs Hx _ IHfs]; intros [|[m y] gs];
      try (split; [discriminate | congruence]); [done|].
    simpl in Hx.
    rewrite !andb_true_iff, bool_decide_eq_true, Hx, IHfs.
    split; [intros [[] ?]; congruence | intros [= -> -> ->]; done].
Qed.

Lemma getType_differs (a b : Value) : getType a ≠ getType b → a ≠ b.
Proof. congruence. Qed.

(** C7.  [Test.assertEqual] fails on two values of different declared
    types, whatever they contain; in particular an [Int64] and a [UInt64]
    never pass, even when they denote the same number; and it fails exactly
    when the two values are not equal as typed values. *)
Theorem assertEqual_fails_iff_not_equal (expected actual : Value) :
  (getType expected ≠ getType actual →
   Test.assertEqual expected actual = Abort (NotEqual expected actual)) ∧
  (∀ n, Test.assertEqual (VInteger Int64 n) (VInteger UInt64 n)
        = Abort (NotEqual (VInteger Int64 n) (VInteger UInt64 n))) ∧
  (is_abort (Test.assertEqual expected actual) = true ↔ expected ≠ actual) ∧
  (Test.assertEqual expected actual = Ok tt ↔ expected = actual).
Proof.
  assert (Hne : ∀ a b, a ≠ b →
            Test.assertEqual a b = Abort (NotEqual a b)).
  { intros a b Hab. unfold Test.assertEqual.
    destruct (value_eqb a b) eqn:E; [|done].
    apply value_eqb_eq in E. contradiction. }
  assert (Heq : ∀ a, Test.assertEqual a a = Ok tt).
  { intros a. unfold Test.assertEqual.
    by rewrite (proj2 (value_eqb_eq a a) eq_refl). }
  split; [|split; [|split]].
  - intros Hty. apply Hne, getType_differs, Hty.
  - intros n. apply Hne. discriminate.
  - destruct (decide (value_eqb expected actual = true)) as [E|E].
    + apply value_eqb_eq in E as ->. rewrite Heq. simpl. split; [discriminate|done].
    + assert (expected ≠ actual) by (by rewrite <- value_eqb_eq).
      rewrite Hne by done. done.
  - split.
    + intros H. apply value_eqb_eq. unfold Test.assertEqual in H.
      destruct (value_eqb expected actual); [done | discriminate].
    + intros ->. apply Heq.
Qed.

Lemma assertEqual_fails_iff_not_equal_witness :
  numeral (VInteger Int64 100) = numeral (VInteger UInt64 100) ∧
  Test.assertEqual (VInteger Int64 100) (VInteger UInt64 100)
  = Abort (NotEqual (VInteger Int64 100) (VInteger UInt64 100)).
Proof.
  split; [reflexivity|].
  apply (proj1 (assertEqual_fails_iff_not_equal
                  (VInteger Int64 100) (VInteger UInt64 100))).
  simpl. discriminate.
Defined.

(** ** Matcher combinators *)

Section Combinators.
Context {W : Type}.
Implicit Types (v : Value) (w : W).

Lemma eval_and_ok (l r : Eval W bool) w b1 w1 b2 w2 :
  l w = (Ok b1, w1) → r w1 = (Ok b2, w2) →
  eval_and l r w = (Ok (b1 && b2), if b1 then w2 else w1).
Proof.
  intros Hl Hr. unfold eval_and, eval_bind. rewrite Hl.
  destruct b1; simpl; [exact Hr | reflexivity].
Qed.

Lemma eval_or_ok (l r : Eval W bool) w b1 w1 b2 w2 :
  l w = (Ok b1, w1) → r w1 = (Ok b2, w2) →
  eval_or l r w = (Ok (b1 || b2), if b1 then w1 else w2).
Proof.
  intros Hl Hr. unfold eval_or, eval_bind. rewrite Hl.
  destruct b1; simpl; [reflexivity | exact Hr].
Qed.

Lemma eval_or_left (l r : Eval W bool) w w1 :
  l w = (Ok true, w1) → eval_or l r w = (Ok true, w1).
Proof. intros Hl. unfold eval_or, eval_bind. by rewrite Hl. Qed.

(** C3.  The test of [m1.and(m2)] on [v] is the Cadence expression
    [m1.test(v) && m2.test(v)]; whenever both tests yield a boolean, it
    yields their conjunction. *)
Theorem Matcher_and_test (m1 m2 : Matcher.t W) v w :
  Matcher.test (Matcher.and m1 m2) v w
  = eval_and (Matcher.test m1 v) (Matcher.test m2 v) w ∧
  (∀ b1 w1 b2 w2,
     Matcher.test m1 v w = (Ok b1, w1) →
     Matcher.test m2 v w1 = (Ok b2, w2) →
     Matcher.test (Matcher.and m1 m2) v w
     = (Ok (b1 && b2), if b1 then w2 else w1)).
Proof.
  split; [reflexivity|].
  intros b1 w1 b2 w2 H1 H2. simpl. by apply eval_and_ok.
Qed.

(** C4.  The test of [m1.or(m2)] on [v] is the Cadence expression
    [m1.test(v) || m2.test(v)]; whenever both tests yield a boolean, it
    yields their disjunction; and when [m1.test(v)] is true the outcome is
    that of [m1] alone whatever [m2] is: the test function of [m2] is not
    evaluated. *)
Theorem Matcher_or_test (m1 m2 : Matcher.t W) v w :
  Matcher.test (Matcher.or m1 m2) v w
  = eval_or (Matcher.test m1 v) (Matcher.test m2 v) w ∧
  (∀ b1 w1 b2 w2,
     Matcher.test m1 v w = (Ok b1, w1) →
     Matcher.test m2 v w1 = (Ok b2, w2) →
     Matcher.test (Matcher.or m1 m2) v w
     = (Ok (b1 || b2), if b1 then w1 else w2)) ∧
  (∀ w1,
     Matcher.test m1 v w = (Ok true, w1) →
     ∀ other, Matcher.test (Matcher.or m1 other) v w = (Ok true, w1)).
Proof.
  split; [reflexivity|split].
  - intros b1 w1 b2 w2 H1 H2. simpl. by apply eval_or_ok.
  - intros w1 H1 other. simpl. by apply eval_or_left.
Qed.

End Combinators.

Lemma Matcher_and_test_witness :
  Matcher.test (Matcher.and Sample.sevenOrMore Sample.lessThanTen)
               (VInteger Int 8) 0%nat
  = (Ok true, 2%nat).
Proof.
  exact (proj2 (Matcher_and_test Sample.sevenOrMore Sample.lessThanTen
                  (VInteger Int 8) 0%nat)
               true 1%nat true 2%nat eq_refl eq_refl).
Defined.

Lemma Matcher_or_test_witness :
  Matcher.test Sample.panicking (VInteger Int 8) 1%nat
  = (Abort (Panic "evaluated"), 2%nat) ∧
  Matcher.test (Matcher.or Sample.sevenOrMore Sample.panicking)
               (VInteger Int 8) 0%nat
  = (Ok true, 1%nat).
Proof.
  split; [reflexivity|].
  exact (proj2 (proj2 (Matcher_or_test Sample.sevenOrMore Sample.lessThanTen
                         (VInteger Int 8) 0%nat))
               1%nat eq_refl Sample.panicking).
Defined.

(** ** Running programs *)

Section Run.
Context {S : Type} (h : Backend S).

Lemma run_bind {A B} (p : Prog A) (f : A → Prog B) (s : S) :
  run h (p ≫= f) s =
  match result (run h p s) with
  | Ok a =>
      let o := run h (f a) (final (run h p s)) in
      outcome (result o) (final o) (calls (run h p s) ++ calls o)
  | Abort e => outcome (Abort e) (final (run h p s)) (calls (run h p s))
  end.
Proof.
  revert s. induction p as [a|e|c k IH]; intros s.
  - simpl. by destruct (run h (f a) s).
  - reflexivity.
  - change (Invoke c k ≫= f) with (Invoke c (λ x, k x ≫= f)).
    simpl. destruct (h c s) as [[x|msg] s']; [|reflexivity].
    rewrite IH. simpl. by destruct (result (run h (k x) s')).
Qed.

Lemma run_call (c : Call) (s : S) :
  run h (call c) s =
  match h c s with
  | (Returns x, s') => outcome (Ok x) s' [c]
  | (Fails msg, s') => outcome (Abort (BackendFailure msg)) s' [c]
  end.
Proof. simpl. by destruct (h c s) as [[x|msg] s']. Qed.

Lemma run_next_unwrap (s : S) :
  run h (Blockchain.executeNextTransaction ≫= unwrap) s =
  match h ExecuteNextTransaction s with
  | (Returns (Some r), s') => outcome (Ok r) s' [ExecuteNextTransaction]
  | (Returns None, s') =>
      outcome (Abort ForceUnwrapNil) s' [ExecuteNextTransaction]
  | (Fails msg, s') =>
      outcome (Abort (BackendFailure msg)) s' [ExecuteNextTransaction]
  end.
Proof.
  change (Blockchain.executeNextTransaction ≫= unwrap)
    with (Invoke ExecuteNextTransaction (@unwrap TransactionResult.t)).
  simpl. by destruct (h ExecuteNextTransaction s) as [[[r|]|msg] s'].
Qed.

(** One iteration of the loop of [executeTransactions] that collects the
    results. *)
Lemma run_collect_step (acc : list TransactionResult.t) (s : S) :
  run h (txResult ← Blockchain.executeNextTransaction ≫= unwrap;
         mret (acc ++ [txResult])) s =
  match h ExecuteNextTransaction s with
  | (Returns (Some r), s') =>
      outcome (Ok (acc ++ [r])) s' [ExecuteNextTransaction]
  | (Returns None, s') =>
      outcome (Abort ForceUnwrapNil) s' [ExecuteNextTransaction]
  | (Fails msg, s') =>
      outcome (Abort (BackendFailure msg)) s' [ExecuteNextTransaction]
  end.
Proof.
  rewrite run_bind, run_next_unwrap.
  by destruct (h ExecuteNextTransaction s) as [[[r|]|msg] s'].
Qed.

(** That loop adds one result per iteration. *)
Lemma collect_length {A} (l : list A) (acc : list TransactionResult.t) s rs :
  result (run h (forIn l
                   (λ _ results,
                      txResult ← Blockchain.executeNextTransaction ≫= unwrap;
                      mret (results ++ [txResult])) acc) s) = Ok rs →
  length rs = (length acc + length l)%nat.
Proof.
  revert acc s. induction l as [|x l IH]; intros acc s.
  - simpl. intros [= <-]. lia.
  - cbn [forIn]. rewrite run_bind, run_collect_step.
    destruct (h ExecuteNextTransaction s) as [[[r|]|msg] s'];
      simpl; try discriminate.
    intros H. apply IH in H. rewrite H, length_app. simpl. lia.
Qed.

End Run.

(** ** The façade over any backend *)

Section Facade.
Context {S : Type} (h : Backend S).

(** A program stays within the call sequence [cs]: what it issues is a
    prefix of [cs], and all of [cs] unless it aborts. *)
Lemma calls_bind {A B} (p : Prog A) (f : A → Prog B) (s : S) (c1 c2 : list Call) :
  calls (run h p s) `prefix_of` c1 →
  (is_abort (result (run h p s)) = false → calls (run h p s) = c1) →
  (∀ a s', calls (run h (f a) s') `prefix_of` c2 ∧
           (is_abort (result (run h (f a) s')) = false →
            calls (run h (f a) s') = c2)) →
  calls (run h (p ≫= f) s) `prefix_of` c1 ++ c2 ∧
  (is_abort (result (run h (p ≫= f) s)) = false →
   calls (run h (p ≫= f) s) = c1 ++ c2).
Proof.
  intros Hpre Hall Hf. rewrite run_bind.
  destruct (result (run h p s)) as [a|e] eqn:E; simpl.
  - rewrite (Hall eq_refl). destruct (Hf a (final (run h p s))) as [Hp Ha].
    split; [by apply prefix_app | intros Hok; by rewrite (Ha Hok)].
  - split; [by apply prefix_app_r | discriminate].
Qed.

Lemma calls_call (c : Call) (s : S) : calls (run h (call c) s) = [c].
Proof. rewrite run_call. by destruct (h c s) as [[x|msg] s']. Qed.

Lemma calls_addTransaction (tx : Transaction.t) (s : S) :
  calls (run h (Blockchain.addTransaction tx) s) = [AddTransaction tx].
Proof. exact (calls_call (AddTransaction tx) s). Qed.

Lemma calls_commitBlock (s : S) :
  calls (run h Blockchain.commitBlock s) = [CommitBlock].
Proof. exact (calls_call CommitBlock s). Qed.

Lemma calls_add_all (txs : list Transaction.t) (s : S) :
  calls (run h (forIn txs (λ tx _, Blockchain.addTransaction tx) tt) s)
    `prefix_of` (AddTransaction <$> txs) ∧
  (is_abort (result (run h (forIn txs (λ tx _, Blockchain.addTransaction tx) tt) s))
   = false →
   calls (run h (forIn txs (λ tx _, Blockchain.addTransaction tx) tt) s)
   = AddTransaction <$> txs).
Proof.
  revert s. induction txs as [|tx txs IH]; intros s; [done|].
  cbn [forIn fmap list_fmap].
  apply (calls_bind (Blockchain.addTransaction tx) _ s [AddTransaction tx]).
  - by rewrite calls_addTransaction.
  - intros _. apply calls_addTransaction.
  - intros [] s'. apply IH.
Qed.

Lemma calls_collect {A} (l : list A) (acc : list TransactionResult.t) (s : S) :
  let p := forIn l
             (λ _ results,
                txResult ← Blockchain.executeNextTransaction ≫= unwrap;
                mret (results ++ [txResult])) acc in
  calls (run h p s) `prefix_of` replicate (length l) ExecuteNextTransaction ∧
  (is_abort (result (run h p s)) = false →
   calls (run h p s) = replicate (length l) ExecuteNextTransaction).
Proof.
  revert acc s. induction l as [|x l IH]; intros acc s; [done|].
  cbn [forIn length replicate]. cbn zeta.
  apply (calls_bind _ _ s [ExecuteNextTransaction]).
  - rewrite run_collect_step.
    by destruct (h ExecuteNextTransaction s) as [[[r|]|msg] s'].
  - intros _. rewrite run_collect_step.
    by destruct (h ExecuteNextTransaction s) as [[[r|]|msg] s'].
  - intros acc' s'. apply IH.
Qed.

(** Over any backend, [executeTransactions] issues a prefix of the batch
    call sequence, and the whole of it whenever it returns. *)
Lemma executeTransactions_calls (txs : list Transaction.t) (s : S) :
  calls (run h (Blockchain.executeTransactions txs) s)
    `prefix_of` batch_calls txs ∧
  (is_abort (result (run h (Blockchain.executeTransactions txs) s)) = false →
   calls (run h (Blockchain.executeTransactions txs) s) = batch_calls txs).
Proof.
  unfold Blockchain.executeTransactions, batch_calls.
  apply calls_bind; [apply calls_add_all .. |].
  intros [] s1. apply calls_bind; [apply (calls_collect txs []) .. |].
  intros results s2.
  apply (calls_bind Blockchain.commitBlock _ s2 [CommitBlock] []).
  - by rewrite calls_commitBlock.
  - intros _. apply calls_commitBlock.
  - intros [] s3. done.
Qed.

(** Over any backend, the array [executeTransactions] returns has one
    result per transaction. *)
Lemma executeTransactions_length (txs : list Transaction.t) (s : S) rs :
  result (run h (Blockchain.executeTransactions txs) s) = Ok rs →
  length rs = length txs.
Proof.
  unfold Blockchain.executeTransactions. intros H. rewrite run_bind in H.
  destruct (result (run h (forIn txs _ tt) s)) as [[]|e]; [|discriminate].
  cbn [result] in H. rewrite run_bind in H.
  destruct (result (run h (forIn txs _ []) _)) as [results|e] eqn:E;
    [|discriminate].
  apply collect_length in E. cbn [result] in H.
  rewrite run_bind in H.
  destruct (result (run h Blockchain.commitBlock _)); [|discriminate].
  cbn in H. injection H as <-. exact E.
Qed.

(** Over any backend on which the [executeNextTransaction] that follows
    [addTransaction] does not answer [nil], [executeTransaction] and the
    composition of the three steps run alike. *)
Lemma executeTransaction_composition (tx : Transaction.t) (s : S) :
  (∀ s1 s2, h (AddTransaction tx) s = (Returns tt, s1) →
            h ExecuteNextTransaction s1 ≠ (Returns None, s2)) →
  outcome_map Some (run h (Blockchain.executeTransaction tx) s)
  = run h (Blockchain.executeTransaction_spec tx) s.
Proof.
  intros Hnext.
  unfold Blockchain.executeTransaction, Blockchain.executeTransaction_spec,
    outcome_map.
  cbn. destruct (h (AddTransaction tx) s) as [[[]|msg] s1] eqn:E1; [|done].
  cbn. destruct (h ExecuteNextTransaction s1) as [[[r|]|msg] s2] eqn:E2;
    [| by destruct (Hnext s1 s2) | done].
  cbn. by destruct (h CommitBlock s2) as [[[]|msg] s3].
Qed.

(** Over any backend, when the [executeNextTransaction] that follows
    [addTransaction] answers [nil], [executeTransaction] aborts at the
    force-unwrap, without committing. *)
Lemma executeTransaction_traps (tx : Transaction.t) (s s1 s2 : S) :
  h (AddTransaction tx) s = (Returns tt, s1) →
  h ExecuteNextTransaction s1 = (Returns None, s2) →
  run h (Blockchain.executeTransaction tx) s
  = outcome (Abort ForceUnwrapNil) s2
            [AddTransaction tx; ExecuteNextTransaction].
Proof.
  intros E1 E2. unfold Blockchain.executeTransaction. cbn.
  rewrite E1. cbn. by rewrite E2.
Qed.

(** The same for [executeTransactions], when the first
    [executeNextTransaction] after the transactions were added answers
    [nil]. *)
Lemma executeTransactions_traps (tx : Transaction.t)
    (txs : list Transaction.t) (s s2 : S) :
  let added :=
    run h (forIn (tx :: txs) (λ tx _, Blockchain.addTransaction tx) tt) s in
  result added = Ok tt →
  h ExecuteNextTransaction (final added) = (Returns None, s2) →
  run h (Blockchain.executeTransactions (tx :: txs)) s
  = outcome (Abort ForceUnwrapNil) s2
            (calls added ++ [ExecuteNextTransaction]).
Proof.
  intros added Hok Hnil. unfold Blockchain.executeTransactions.
  rewrite run_bind. fold added. rewrite Hok. cbn zeta.
  rewrite run_bind. cbn [forIn]. rewrite run_bind, run_collect_step, Hnil.
  reflexivity.
Qed.

Lemma run_addTransaction (tx : Transaction.t) (s : S) :
  run h (Blockchain.addTransaction tx) s =
  match h (AddTransaction tx) s with
  | (Returns _, s') => outcome (Ok tt) s' [AddTransaction tx]
  | (Fails msg, s') =>
      outcome (Abort (BackendFailure msg)) s' [AddTransaction tx]
  end.
Proof.
  unfold Blockchain.addTransaction, call. cbn [run].
  by destruct (h (AddTransaction tx) s) as [[[]|msg] s'].
Qed.

Section PendingBlock.
Context (pending : S → nat) (Hkeeps : keeps_pending_block h pending).

(** Adding transactions never meets the force-unwrap, and raises the count
    by their number. *)
Lemma add_all_pending (txs : list Transaction.t) (s : S) :
  match
    result (run h (forIn txs (λ tx _, Blockchain.addTransaction tx) tt) s)
  with
  | Ok _ =>
      pending
        (final (run h (forIn txs (λ tx _, Blockchain.addTransaction tx) tt) s))
      = (pending s + length txs)%nat
  | Abort e => e ≠ ForceUnwrapNil
  end.
Proof.
  destruct Hkeeps as (Hadd & _ & _).
  revert s. induction txs as [|tx txs IH]; intros s.
  - simpl. lia.
  - cbn [forIn]. rewrite run_bind, run_addTransaction.
    destruct (h (AddTransaction tx) s) as [[[]|msg] s1] eqn:E; [|done].
    cbn [result final]. cbn zeta. cbn [result final].
    specialize (IH s1). destruct (result (run h (forIn txs _ tt) s1)); [|done].
    rewrite IH, (Hadd tx s s1 E). simpl. lia.
Qed.

(** With at least as many transactions pending as the loop has
    iterations, collecting the results never meets [nil]. *)
Lemma collect_no_trap {A} (l : list A) (acc : list TransactionResult.t)
    (s : S) :
  (length l ≤ pending s)%nat →
  result (run h (forIn l
                   (λ _ results,
                      txResult ← Blockchain.executeNextTransaction ≫= unwrap;
                      mret (results ++ [txResult])) acc) s)
  ≠ Abort ForceUnwrapNil.
Proof.
  destruct Hkeeps as (_ & Hsome & Hnext).
  revert acc s. induction l as [|x l IH]; intros acc s Hlen; [done|].
  cbn [forIn]. rewrite run_bind, run_collect_step.
  destruct (h ExecuteNextTransaction s) as [[[r|]|msg] s'] eqn:E.
  - cbn [result final]. cbn zeta. cbn [result]. apply IH.
    rewrite (Hnext s _ s' E). simpl in Hlen. lia.
  - destruct (Hsome s s'); [simpl in Hlen; lia | done].
  - done.
Qed.

Lemma executeTransactions_no_trap (txs : list Transaction.t) (s : S) :
  result (run h (Blockchain.executeTransactions txs) s) ≠ Abort ForceUnwrapNil.
Proof.
  unfold Blockchain.executeTransactions. rewrite run_bind.
  pose proof (add_all_pending txs s) as Hadd.
  destruct (result (run h (forIn txs _ tt) s)) as [[]|e];
    [|cbn [result]; congruence].
  cbn zeta. cbn [result]. rewrite run_bind.
  pose proof (collect_no_trap txs []
                (final (run h (forIn txs
                                 (λ tx _, Blockchain.addTransaction tx) tt) s)))
    as Hcollect.
  destruct (result (run h (forIn txs _ []) _)) as [results|e];
    [|cbn [result]; intros Heq; apply Hcollect; [lia | done]].
  cbn zeta. cbn [result]. rewrite run_bind.
  destruct (result (run h Blockchain.commitBlock _)) as [[]|e] eqn:Ec; [done|].
  cbn [result]. intros [= ->].
  unfold Blockchain.commitBlock, call in Ec. cbn [run] in Ec.
  by destruct (h CommitBlock _) as [[[]|msg] s3].
Qed.

Lemma executeTransaction_no_trap (tx : Transaction.t) (s : S) :
  result (run h (Blockchain.executeTransaction tx) s) ≠ Abort ForceUnwrapNil.
Proof.
  destruct Hkeeps as (Hadd & Hsome & _).
  unfold Blockchain.executeTransaction. rewrite run_bind, run_addTransaction.
  destruct (h (AddTransaction tx) s) as [[[]|msg] s1] eqn:E1; [|done].
  cbn [result final]. cbn zeta. cbn [result].
  rewrite run_bind, run_next_unwrap.
  destruct (h ExecuteNextTransaction s1) as [[[r|]|msg] s2] eqn:E2.
  - cbn [result final]. cbn zeta. cbn [result]. rewrite run_bind.
    destruct (result (run h Blockchain.commitBlock s2)) as [[]|e] eqn:Ec;
      [done|].
    cbn [result]. intros [= ->].
    unfold Blockchain.commitBlock, call in Ec. cbn [run] in Ec.
    by destruct (h CommitBlock s2) as [[[]|msg] s3].
  - destruct (Hsome s1 s2); [|done]. rewrite (Hadd tx s s1 E1). lia.
  - done.
Qed.

End PendingBlock.

End Facade.

(** ** The façade over the emulator *)

Section OverEmulator.
Context {L : Type} (rt : Emulator.Runtime L).
Implicit Types (s : Emulator.State L) (tx : Transaction.t)
  (txs : list Transaction.t).

Local Abbreviation emu := (Emulator.backend rt).
Local Abbreviation collect :=
  (λ (_ : Transaction.t) (results : list TransactionResult.t),
     txResult ← Blockchain.executeNextTransaction ≫= unwrap;
     mret (results ++ [txResult])).

Lemma enqueue_nil s : Emulator.enqueue [] s = s.
Proof. destruct s. unfold Emulator.enqueue. simpl. by rewrite app_nil_r. Qed.

Lemma enqueue_cons tx txs s :
  Emulator.enqueue txs (snd (Emulator.addTransaction tx s))
  = Emulator.enqueue (tx :: txs) s.
Proof. unfold Emulator.enqueue. simpl. by rewrite <- app_assoc. Qed.

Lemma run_add_all txs s :
  run emu (forIn txs (λ tx _, Blockchain.addTransaction tx) tt) s
  = outcome (Ok tt) (Emulator.enqueue txs s) (AddTransaction <$> txs).
Proof.
  revert s. induction txs as [|tx txs IH]; intros s.
  - simpl. by rewrite enqueue_nil.
  - cbn [forIn]. rewrite run_bind.
    change (run emu (Blockchain.addTransaction tx) s)
      with (outcome (Ok tt) (snd (Emulator.addTransaction tx s))
              [AddTransaction tx]).
    cbn [result final calls]. rewrite IH. cbn zeta.
    cbn [result final calls]. by rewrite enqueue_cons.
Qed.

Lemma batch_fst c (l : L) txs : fst <$> Emulator.batch rt c l txs = txs.
Proof.
  revert l. induction txs as [|tx txs IH]; intros l; [done|].
  simpl. by rewrite IH.
Qed.

Lemma batch_length c (l : L) txs : length (Emulator.batch rt c l txs) = length txs.
Proof. by rewrite <- (batch_fst c l txs) at 2; rewrite length_fmap. Qed.

Lemma batch_lookup c (l : L) txs i tx :
  txs !! i = Some tx →
  Emulator.batch rt c l txs !! i
  = Some (tx, Emulator.transaction_result
                (Emulator.failure
                   (Emulator.run_transaction rt tx c
                      (Emulator.ledger_of rt c l (take i txs))))).
Proof.
  revert l i. induction txs as [|x txs IH]; intros l i; [done|].
  destruct i as [|i]; simpl.
  - by intros [= ->].
  - intros H. by apply IH.
Qed.

Lemma drain_empty n s : Emulator.queue s = [] → Emulator.drain rt n s = s.
Proof.
  intros Hq. induction n as [|n IH]; [done|].
  simpl. unfold Emulator.executeNextTransaction. by rewrite Hq.
Qed.

Lemma drain_fields n s :
  Emulator.configuration (Emulator.drain rt n s) = Emulator.configuration s ∧
  Emulator.committed (Emulator.drain rt n s) = Emulator.committed s ∧
  Emulator.queue (Emulator.drain rt n s) = drop n (Emulator.queue s) ∧
  Emulator.executed (Emulator.drain rt n s)
  = Emulator.executed s ++
    Emulator.batch rt (Emulator.configuration s) (Emulator.ledger s)
      (take n (Emulator.queue s)).
Proof.
  revert s. induction n as [|n IH]; intros s.
  - simpl. by rewrite app_nil_r.
  - destruct (Emulator.queue s) as [|tx rest] eqn:Hq.
    + rewrite drain_empty by done. rewrite Hq. simpl. by rewrite app_nil_r.
    + simpl. unfold Emulator.executeNextTransaction. rewrite Hq.
      cbn [snd]. destruct (IH (Emulator.state
        (Emulator.ledger_after
           (Emulator.run_transaction rt tx (Emulator.configuration s)
              (Emulator.ledger s)))
        (Emulator.configuration s) (Emulator.committed s)
        (Emulator.executed s ++
         [(tx, Emulator.transaction_result
                 (Emulator.failure
                    (Emulator.run_transaction rt tx (Emulator.configuration s)
                       (Emulator.ledger s))))])
        rest
        (Emulator.emitted s ++
         Emulator.events_emitted
           (Emulator.run_transaction rt tx (Emulator.configuration s)
              (Emulator.ledger s)))
        (Emulator.logged s ++
         Emulator.lines_logged
           (Emulator.run_transaction rt tx (Emulator.configuration s)
              (Emulator.ledger s)))))
        as (-> & -> & -> & ->).
      simpl. by rewrite <- app_assoc.
Qed.

(** With enough transactions enqueued, the collecting loop never meets
    [nil]: it returns the results of the oldest ones, in order. *)
Lemma run_collect (l : list Transaction.t) acc s :
  (length l ≤ length (Emulator.queue s))%nat →
  run emu (forIn l collect acc) s
  = outcome
      (Ok (acc ++ (snd <$> Emulator.batch rt (Emulator.configuration s)
                             (Emulator.ledger s)
                             (take (length l) (Emulator.queue s)))))
      (Emulator.drain rt (length l) s)
      (replicate (length l) ExecuteNextTransaction).
Proof.
  revert acc s. induction l as [|x l IH]; intros acc s Hlen.
  - simpl. by rewrite app_nil_r.
  - cbn [forIn]. rewrite run_bind, run_collect_step.
    change (emu ExecuteNextTransaction s)
      with (Emulator.executeNextTransaction rt s).
    cbn [Emulator.drain length replicate].
    unfold Emulator.executeNextTransaction.
    destruct (Emulator.queue s) as [|tx rest] eqn:Hq; [simpl in Hlen; lia|].
    cbn [result final calls snd]. rewrite IH by (simpl in *; lia).
    cbn. by rewrite <- app_assoc.
Qed.

Lemma run_commitBlock s :
  run emu Blockchain.commitBlock s =
  match Emulator.commitBlock s with
  | (Returns _, s') => outcome (Ok tt) s' [CommitBlock]
  | (Fails msg, s') => outcome (Abort (BackendFailure msg)) s' [CommitBlock]
  end.
Proof.
  unfold Blockchain.commitBlock, call. cbn [run].
  change (emu CommitBlock s) with (Emulator.commitBlock s).
  by destruct (Emulator.commitBlock s) as [[[]|msg] s'].
Qed.

Lemma commitBlock_history s :
  Emulator.history (snd (Emulator.commitBlock s)) = Emulator.history s.
Proof.
  unfold Emulator.commitBlock, Emulator.history.
  destruct (Emulator.queue s); [|done].
  simpl. rewrite concat_app. simpl. by rewrite !app_nil_r.
Qed.

Lemma drop_all_app (q txs : list Transaction.t) :
  drop (length txs) (q ++ txs) = [] ↔ q = [].
Proof.
  split.
  - intros H. apply (f_equal length) in H.
    rewrite length_drop, length_app in H. simpl in H.
    destruct q; [done | simpl in H; lia].
  - intros ->. simpl. by rewrite drop_all.
Qed.

(** What [executeTransactions] does on the emulator, in any state: the
    transactions are added, the oldest enqueued ones are executed, and the
    block is committed. *)
Lemma run_executeTransactions txs s :
  run emu (Blockchain.executeTransactions txs) s =
  match
    Emulator.commitBlock
      (Emulator.drain rt (length txs) (Emulator.enqueue txs s))
  with
  | (Returns _, s') =>
      outcome
        (Ok (snd <$> Emulator.batch rt (Emulator.configuration s)
                       (Emulator.ledger s)
                       (take (length txs) (Emulator.queue s ++ txs))))
        s' (batch_calls txs)
  | (Fails msg, s') =>
      outcome (Abort (BackendFailure msg)) s' (batch_calls txs)
  end.
Proof.
  unfold Blockchain.executeTransactions, batch_calls.
  rewrite run_bind, run_add_all. cbn [result final calls]. cbn zeta.
  rewrite run_bind, run_collect
    by (simpl; rewrite length_app; lia).
  cbn [result final calls]. cbn zeta.
  rewrite run_bind, run_commitBlock.
  destruct (Emulator.commitBlock _) as [[[]|msg] s']; reflexivity.
Qed.

Lemma run_executeTransaction tx s :
  run emu (Blockchain.executeTransaction tx) s =
  match
    Emulator.commitBlock (Emulator.drain rt 1 (Emulator.enqueue [tx] s))
  with
  | (Returns _, s') =>
      outcome
        (Ok (default (Emulator.transaction_result None)
               (head (snd <$> Emulator.batch rt (Emulator.configuration s)
                                (Emulator.ledger s)
                                (take 1 (Emulator.queue s ++ [tx]))))))
        s' [AddTransaction tx; ExecuteNextTransaction; CommitBlock]
  | (Fails msg, s') =>
      outcome (Abort (BackendFailure msg)) s'
        [AddTransaction tx; ExecuteNextTransaction; CommitBlock]
  end.
Proof.
  unfold Blockchain.executeTransaction.
  rewrite run_bind.
  change (run emu (Blockchain.addTransaction tx) s)
    with (outcome (Ok tt) (Emulator.enqueue [tx] s) [AddTransaction tx]).
  cbn [result final calls]. cbn zeta.
  rewrite run_bind, run_next_unwrap.
  change (emu ExecuteNextTransaction (Emulator.enqueue [tx] s))
    with (Emulator.executeNextTransaction rt (Emulator.enqueue [tx] s)).
  cbn [Emulator.drain]. unfold Emulator.executeNextTransaction.
  destruct (Emulator.queue s) as [|old rest] eqn:Hq;
    cbn [Emulator.queue Emulator.enqueue]; rewrite Hq; cbn [app];
    cbn [result final calls snd]; cbn zeta;
    rewrite run_bind, run_commitBlock;
    destruct (Emulator.commitBlock _) as [[[]|msg] s']; reflexivity.
Qed.

(** On the emulator the [executeNextTransaction] that follows an
    [addTransaction] always finds a transaction. *)
Lemma emulator_schedules tx s s1 s2 :
  emu (AddTransaction tx) s = (Returns tt, s1) →
  emu ExecuteNextTransaction s1 ≠ (Returns None, s2).
Proof.
  intros [= <-].
  change (Emulator.executeNextTransaction rt
            (snd (Emulator.addTransaction tx s)) ≠ (Returns None, s2)).
  unfold Emulator.executeNextTransaction. simpl.
  destruct (Emulator.queue s); simpl; discriminate.
Qed.

(** The emulator keeps a pending block: the count is the length of its
    queue. *)
Lemma emulator_keeps_pending_block :
  keeps_pending_block emu (λ s, length (Emulator.queue s)).
Proof.
  split; [|split].
  - intros tx s s' [= <-]. simpl. rewrite length_app. simpl. lia.
  - intros s s' Hq.
    change (Emulator.executeNextTransaction rt s ≠ (Returns None, s')).
    unfold Emulator.executeNextTransaction.
    by destruct (Emulator.queue s).
  - intros s r s'.
    change (Emulator.executeNextTransaction rt s = (Returns r, s') →
            length (Emulator.queue s') = pred (length (Emulator.queue s))).
    unfold Emulator.executeNextTransaction.
    destruct (Emulator.queue s) as [|tx rest] eqn:Hq; intros [= _ <-];
      simpl; by rewrite ?Hq.
Qed.

End OverEmulator.

(** ** [executeTransaction] *)

(** C1.  [executeTransaction(tx)] runs as the composition
    [addTransaction(tx); executeNextTransaction(); commitBlock()] and
    returns what the middle step produced: over any backend whose
    [executeNextTransaction] after the [addTransaction] finds a
    transaction, so over every backend that keeps a pending block, in
    every state; and so on the emulator for every transaction and every
    state, where the three calls are issued in that order. *)
Theorem executeTransaction_is_composition (tx : Transaction.t) :
  (∀ (S : Type) (h : Backend S) (s : S),
     (∀ s1 s2, h (AddTransaction tx) s = (Returns tt, s1) →
               h ExecuteNextTransaction s1 ≠ (Returns None, s2)) →
     outcome_map Some (run h (Blockchain.executeTransaction tx) s)
     = run h (Blockchain.executeTransaction_spec tx) s) ∧
  (∀ (S : Type) (h : Backend S) (pending : S → nat),
     keeps_pending_block h pending →
     ∀ s : S,
       outcome_map Some (run h (Blockchain.executeTransaction tx) s)
       = run h (Blockchain.executeTransaction_spec tx) s) ∧
  (∀ (L : Type) (rt : Emulator.Runtime L) (s : Emulator.State L),
     outcome_map Some
       (run (Emulator.backend rt) (Blockchain.executeTransaction tx) s)
     = run (Emulator.backend rt) (Blockchain.executeTransaction_spec tx) s ∧
     calls (run (Emulator.backend rt) (Blockchain.executeTransaction tx) s)
     = [AddTransaction tx; ExecuteNextTransaction; CommitBlock]).
Proof.
  split; [|split].
  - intros S h s Hnext. by apply executeTransaction_composition.
  - intros S h pending (Hadd & Hsome & _) s.
    apply executeTransaction_composition. intros s1 s2 E.
    apply Hsome. rewrite (Hadd tx s s1 E). lia.
  - intros L rt s. split.
    + apply executeTransaction_composition. apply emulator_schedules.
    + rewrite run_executeTransaction.
      by destruct (Emulator.commitBlock _) as [[[]|msg] s'].
Qed.

Lemma executeTransaction_is_composition_witness :
  outcome_map Some
    (run (Emulator.backend Sample.toy)
       (Blockchain.executeTransaction Sample.tx_ok) Sample.genesis)
  = run (Emulator.backend Sample.toy)
      (Blockchain.executeTransaction_spec Sample.tx_ok) Sample.genesis.
Proof.
  apply (proj1 (executeTransaction_is_composition Sample.tx_ok)
           _ (Emulator.backend Sample.toy) Sample.genesis).
  intros s1 s2 H. injection H as <-. discriminate.
Defined.

(** ** [executeTransactions] *)

Section Batches.
Context {L : Type} (rt : Emulator.Runtime L).

Lemma batch_zip c (l : L) (txs : list Transaction.t) :
  Emulator.batch rt c l txs = zip txs (snd <$> Emulator.batch rt c l txs).
Proof.
  revert l. induction txs as [|tx txs IH]; intros l; [done|].
  simpl. by rewrite <- IH.
Qed.

Lemma executeTransactions_history (txs : list Transaction.t)
    (s : Emulator.State L) :
  Emulator.history
    (final (run (Emulator.backend rt) (Blockchain.executeTransactions txs) s))
  = Emulator.history s ++
    Emulator.batch rt (Emulator.configuration s) (Emulator.ledger s)
      (take (length txs) (Emulator.queue s ++ txs)).
Proof.
  rewrite run_executeTransactions.
  pose proof (commitBlock_history
                (Emulator.drain rt (length txs) (Emulator.enqueue txs s)))
    as Hc.
  destruct (Emulator.commitBlock _) as [[[]|msg] s']; cbn [final];
    simpl in Hc; rewrite Hc; unfold Emulator.history;
    destruct (drain_fields rt (length txs) (Emulator.enqueue txs s))
      as (_ & -> & _ & ->); simpl; by rewrite app_assoc.
Qed.

Lemma executeTransactions_outcome (txs : list Transaction.t)
    (s : Emulator.State L) :
  result (run (Emulator.backend rt) (Blockchain.executeTransactions txs) s) =
  match Emulator.queue s with
  | [] =>
      Ok (snd <$> Emulator.batch rt (Emulator.configuration s)
                    (Emulator.ledger s) txs)
  | _ :: _ =>
      Abort (BackendFailure "pending block cannot be committed before execution")
  end.
Proof.
  rewrite run_executeTransactions. unfold Emulator.commitBlock.
  destruct (drain_fields rt (length txs) (Emulator.enqueue txs s))
    as (_ & _ & Hq & _).
  simpl in Hq. rewrite Hq.
  destruct (Emulator.queue s) as [|old rest] eqn:E.
  - simpl. rewrite drop_all. simpl. by rewrite firstn_all.
  - destruct (drop _ _) eqn:D; [|done].
    apply drop_all_app in D. discriminate.
Qed.

End Batches.

(** C5.  [executeTransactions(txs)] first adds every transaction of [txs],
    then executes as many, then commits once, at the end: over any backend
    its calls are a prefix of that sequence, and all of it when it returns;
    on the emulator they are all of it in every state, the transactions run
    are the oldest enqueued ones in enqueue order, and from a block with
    nothing left to execute they are [txs], in order. *)
Theorem executeTransactions_adds_executes_commits (txs : list Transaction.t) :
  (∀ (S : Type) (h : Backend S) (s : S),
     let o := run h (Blockchain.executeTransactions txs) s in
     calls o `prefix_of` batch_calls txs ∧
     (is_abort (result o) = false → calls o = batch_calls txs)) ∧
  (∀ (L : Type) (rt : Emulator.Runtime L) (s : Emulator.State L),
     let o := run (Emulator.backend rt) (Blockchain.executeTransactions txs) s in
     calls o = batch_calls txs ∧
     Emulator.history (final o)
     = Emulator.history s ++
       Emulator.batch rt (Emulator.configuration s) (Emulator.ledger s)
         (take (length txs) (Emulator.queue s ++ txs)) ∧
     (Emulator.queue s = [] →
      ∃ results,
        result o = Ok results ∧
        length results = length txs ∧
        Emulator.history (final o) = Emulator.history s ++ zip txs results ∧
        Emulator.queue (final o) = [] ∧
        Emulator.executed (final o) = [] ∧
        Emulator.committed (final o)
        = Emulator.committed s ++ [Emulator.executed s ++ zip txs results])).
Proof.
  split.
  - intros S h s. apply executeTransactions_calls.
  - intros L rt s o. split; [|split].
    + subst o. rewrite run_executeTransactions.
      by destruct (Emulator.commitBlock _) as [[[]|msg] s'].
    + apply executeTransactions_history.
    + intros Hq.
      exists (snd <$> Emulator.batch rt (Emulator.configuration s)
                        (Emulator.ledger s) txs).
      pose proof (executeTransactions_outcome rt txs s) as Hr.
      pose proof (executeTransactions_history rt txs s) as Hh.
      rewrite Hq in Hr, Hh. simpl in Hh. rewrite firstn_all in Hh.
      rewrite <- batch_zip. split; [exact Hr|].
      split; [by rewrite length_fmap, batch_length|].
      split; [exact Hh|].
      subst o. rewrite run_executeTransactions.
      unfold Emulator.commitBlock.
      destruct (drain_fields rt (length txs) (Emulator.enqueue txs s))
        as (_ & Hc & Hd & He).
      simpl in Hc, Hd, He. rewrite Hq in Hd, He. simpl in Hd, He.
      rewrite drop_all in Hd. rewrite firstn_all in He.
      rewrite Hd. simpl. by rewrite Hc, He.
Qed.

Lemma executeTransactions_adds_executes_commits_witness :
  let o := run (Emulator.backend Sample.toy)
             (Blockchain.executeTransactions [Sample.tx_ok; Sample.tx_panic])
             Sample.genesis in
  calls o = [AddTransaction Sample.tx_ok; AddTransaction Sample.tx_panic;
             ExecuteNextTransaction; ExecuteNextTransaction; CommitBlock] ∧
  ∃ results,
    result o = Ok results ∧
    length results = 2%nat ∧
    Emulator.history (final o)
    = Emulator.history Sample.genesis ++
      zip [Sample.tx_ok; Sample.tx_panic] results ∧
    Emulator.queue (final o) = [] ∧
    Emulator.executed (final o) = [] ∧
    Emulator.committed (final o)
    = Emulator.committed Sample.genesis ++
      [Emulator.executed Sample.genesis ++
       zip [Sample.tx_ok; Sample.tx_panic] results].
Proof.
  pose proof (proj2 (executeTransactions_adds_executes_commits
                       [Sample.tx_ok; Sample.tx_panic])
                _ Sample.toy Sample.genesis) as H.
  cbn zeta in H. destruct H as (Hcalls & _ & Hrun).
  split; [exact Hcalls | exact (Hrun eq_refl)].
Defined.

(** C10.  The array [executeTransactions(txs)] returns has the length of
    [txs], over any backend; on the emulator it is returned exactly from a
    block with nothing left to execute, and its i-th element is then the
    result of executing the i-th transaction of [txs], on the ledger the
    transactions before it left. *)
Theorem executeTransactions_results (txs : list Transaction.t) :
  (∀ (S : Type) (h : Backend S) (s : S) results,
     result (run h (Blockchain.executeTransactions txs) s) = Ok results →
     length results = length txs) ∧
  (∀ (L : Type) (rt : Emulator.Runtime L) (s : Emulator.State L),
     let o := run (Emulator.backend rt) (Blockchain.executeTransactions txs) s in
     (Emulator.queue s = [] → ∃ results, result o = Ok results) ∧
     (∀ results,
        result o = Ok results →
        Emulator.queue s = [] ∧
        length results = length txs ∧
        ∀ i tx,
          txs !! i = Some tx →
          results !! i
          = Some (Emulator.transaction_result
                    (Emulator.failure
                       (Emulator.run_transaction rt tx
                          (Emulator.configuration s)
                          (Emulator.ledger_of rt (Emulator.configuration s)
                             (Emulator.ledger s) (take i txs))))))).
Proof.
  split.
  - intros S h s results. apply executeTransactions_length.
  - intros L rt s o. subst o. rewrite executeTransactions_outcome. split.
    + intros ->. eauto.
    + intros results Hr.
      destruct (Emulator.queue s) as [|old rest]; [|discriminate].
      injection Hr as <-. split; [done|].
      split; [by rewrite length_fmap, batch_length|].
      intros i tx Hi. rewrite list_lookup_fmap.
      by rewrite (batch_lookup rt _ _ _ _ _ Hi).
Qed.

Lemma executeTransactions_results_witness :
  result (run (Emulator.backend Sample.toy)
            (Blockchain.executeTransactions [Sample.tx_ok; Sample.tx_panic])
            Sample.genesis)
  = Ok [TransactionResult.init succeeded None;
        TransactionResult.init failed (Some (Error.init "some error"))] ∧
  length [TransactionResult.init succeeded None;
          TransactionResult.init failed (Some (Error.init "some error"))]
  = length [Sample.tx_ok; Sample.tx_panic].
Proof.
  split; [reflexivity|].
  exact (proj1 (executeTransactions_results [Sample.tx_ok; Sample.tx_panic])
           _ (Emulator.backend Sample.toy) Sample.genesis _ eq_refl).
Defined.

(** ** [commitBlock] *)

Section Blocks.
Context {L : Type} (rt : Emulator.Runtime L).
Implicit Types (s : Emulator.State L).

Lemma unexecuted_cons (c : Call) (cs : list Call) (n : nat) :
  unexecuted (c :: cs) n = unexecuted cs (unexecuted [c] n).
Proof. by destruct c. Qed.

(** Every specified call moves the queue as the block state machine says. *)
Lemma queue_step (c : Call) s :
  specified c = true →
  length (Emulator.queue (snd (Emulator.backend rt c s)))
  = unexecuted [c] (length (Emulator.queue s)).
Proof.
  destruct c; try discriminate; intros _; cbn [Emulator.backend unexecuted].
  - unfold Emulator.executeScript.
    by destruct (Emulator.run_script rt _ _ _ _).
  - simpl. rewrite length_app. simpl. lia.
  - unfold Emulator.executeNextTransaction.
    destruct (Emulator.queue s) eqn:E; simpl; by rewrite ?E.
  - unfold Emulator.commitBlock.
    destruct (Emulator.queue s) eqn:E; simpl; by rewrite ?E.
  - done.
  - done.
  - unfold Emulator.events. by destruct type.
Qed.

(** The queue of the emulator holds as many transactions as the calls
    issued so far added and did not yet execute. *)
Lemma queue_tracks_calls {A} (p : Prog A) s :
  forallb specified (calls (run (Emulator.backend rt) p s)) = true →
  length (Emulator.queue (final (run (Emulator.backend rt) p s)))
  = unexecuted (calls (run (Emulator.backend rt) p s))
      (length (Emulator.queue s)).
Proof.
  revert s. induction p as [a|e|c k IH]; intros s; [done..|].
  cbn [run]. pose proof (queue_step c s) as Hstep.
  destruct (Emulator.backend rt c s) as [[x|msg] s']; cbn [calls final snd] in *;
    rewrite unexecuted_cons; cbn [forallb]; rewrite andb_true_iff;
    intros [Hc Hrest]; rewrite <- (Hstep Hc).
  - by apply IH.
  - done.
Qed.

Lemma commitBlock_aborts s :
  is_abort (result (run (Emulator.backend rt) Blockchain.commitBlock s)) = true
  ↔ Emulator.queue s ≠ [].
Proof.
  rewrite run_commitBlock. unfold Emulator.commitBlock.
  destruct (Emulator.queue s); simpl; split; done.
Qed.

End Blocks.

(** C2.  On the emulator [commitBlock()] fails exactly when the pending
    block holds a transaction that was added and not yet executed; a block
    with nothing left to execute, empty or not, is committed, and a block
    that cannot be committed stays as it is.  In terms of the calls issued
    so far: it fails exactly when more transactions were added than
    executed. *)
Theorem commitBlock_fails_iff_unexecuted
    {L : Type} (rt : Emulator.Runtime L) (s : Emulator.State L) :
  let o := run (Emulator.backend rt) Blockchain.commitBlock s in
  (is_abort (result o) = true ↔ Emulator.queue s ≠ []) ∧
  (Emulator.queue s = [] →
   result o = Ok tt ∧
   Emulator.committed (final o) = Emulator.committed s ++ [Emulator.executed s] ∧
   Emulator.executed (final o) = [] ∧
   Emulator.queue (final o) = []) ∧
  (Emulator.queue s ≠ [] → final o = s) ∧
  (∀ tx,
     Emulator.queue s = [] →
     run (Emulator.backend rt)
       (Blockchain.commitBlock;;
        Blockchain.addTransaction tx;;
        Blockchain.commitBlock) s
     = outcome
         (Abort (BackendFailure
                   "pending block cannot be committed before execution"))
         (Emulator.state (Emulator.ledger s) (Emulator.configuration s)
            (Emulator.committed s ++ [Emulator.executed s]) [] [tx]
            (Emulator.emitted s) (Emulator.logged s))
         [CommitBlock; AddTransaction tx; CommitBlock]) ∧
  (∀ (A : Type) (p : Prog A),
     let before := run (Emulator.backend rt) p s in
     forallb specified (calls before) = true →
     (is_abort (result (run (Emulator.backend rt) Blockchain.commitBlock
                          (final before))) = true
      ↔ unexecuted (calls before) (length (Emulator.queue s)) ≠ 0%nat)).
Proof.
  intros o. split; [apply commitBlock_aborts|].
  split; [|split; [|split]].
  - intros Hq. subst o. rewrite run_commitBlock. unfold Emulator.commitBlock.
    by rewrite Hq.
  - intros Hq. subst o. rewrite run_commitBlock. unfold Emulator.commitBlock.
    by destruct (Emulator.queue s).
  - intros tx Hq. rewrite run_bind, run_commitBlock.
    unfold Emulator.commitBlock at 1 2 3. rewrite Hq.
    cbn [result final calls]. cbn zeta. rewrite run_bind.
    change (run (Emulator.backend rt) (Blockchain.addTransaction tx) ?x)
      with (outcome (Ok tt) (snd (Emulator.addTransaction tx x))
              [AddTransaction tx]).
    cbn [result final calls]. cbn zeta. rewrite run_commitBlock.
    reflexivity.
  - intros A p before Hspec. rewrite commitBlock_aborts.
    subst before. rewrite <- (queue_tracks_calls rt p s Hspec).
    by destruct (Emulator.queue _).
Qed.

Lemma commitBlock_fails_iff_unexecuted_witness :
  result (run (Emulator.backend Sample.toy) Blockchain.commitBlock
            Sample.genesis) = Ok tt ∧
  is_abort
    (result (run (Emulator.backend Sample.toy) Blockchain.commitBlock
               (Emulator.enqueue [Sample.tx_ok] Sample.genesis))) = true ∧
  final (run (Emulator.backend Sample.toy) Blockchain.commitBlock
           (Emulator.enqueue [Sample.tx_ok] Sample.genesis))
  = Emulator.enqueue [Sample.tx_ok] Sample.genesis.
Proof.
  split; [|split].
  - apply (proj1 (proj2 (commitBlock_fails_iff_unexecuted
                           Sample.toy Sample.genesis))). reflexivity.
  - apply (proj1 (commitBlock_fails_iff_unexecuted Sample.toy
                    (Emulator.enqueue [Sample.tx_ok] Sample.genesis))).
    discriminate.
  - apply (proj1 (proj2 (proj2 (commitBlock_fails_iff_unexecuted Sample.toy
                    (Emulator.enqueue [Sample.tx_ok] Sample.genesis))))).
    discriminate.
Defined.

(** ** Results *)

Lemma script_result_wf (o : option Value + Error.t) :
  ScriptResult_wf (Emulator.script_result o).
Proof. destruct o; [left | right]; done. Qed.

Lemma transaction_result_wf (e : option Error.t) :
  TransactionResult_wf (Emulator.transaction_result e).
Proof. destruct e; [right | left]; done. Qed.

Lemma batch_wf {L : Type} (rt : Emulator.Runtime L) c (l : L)
    (txs : list Transaction.t) :
  Forall TransactionResult_wf (snd <$> Emulator.batch rt c l txs).
Proof.
  revert l. induction txs as [|tx txs IH]; intros l; simpl; [done|].
  constructor; [apply transaction_result_wf | apply IH].
Qed.

(** C6.  Every result the emulator produces, through [executeScript],
    [executeNextTransaction], [executeTransaction] and
    [executeTransactions], is either a success without an error or a
    failure with an error, never both; the [returnValue] of a failed script
    is [nil]. *)
Theorem results_well_formed
    {L : Type} (rt : Emulator.Runtime L) (s : Emulator.State L) :
  (∀ script arguments,
     ∃ r,
       result (run (Emulator.backend rt)
                 (Blockchain.executeScript script arguments) s) = Ok r ∧
       ScriptResult_wf r ∧
       (ScriptResult.status r = failed → ScriptResult.returnValue r = None)) ∧
  (∃ o,
     result (run (Emulator.backend rt) Blockchain.executeNextTransaction s)
     = Ok o ∧
     ∀ r, o = Some r → TransactionResult_wf r) ∧
  (∀ tx r,
     result (run (Emulator.backend rt) (Blockchain.executeTransaction tx) s)
     = Ok r →
     TransactionResult_wf r) ∧
  (∀ txs rs,
     result (run (Emulator.backend rt) (Blockchain.executeTransactions txs) s)
     = Ok rs →
     Forall TransactionResult_wf rs) ∧
  (∀ r : ScriptResult.t,
     ¬ ((ScriptResult.status r = succeeded ∧ ScriptResult.error r = None) ∧
        (ScriptResult.status r = failed ∧ ScriptResult.error r ≠ None ∧
         ScriptResult.returnValue r = None))) ∧
  (∀ r : TransactionResult.t,
     ¬ ((TransactionResult.status r = succeeded ∧
         TransactionResult.error r = None) ∧
        (TransactionResult.status r = failed ∧
         TransactionResult.error r ≠ None))).
Proof.
  split; [|split; [|split; [|split; [|split]]]].
  - intros script arguments.
    unfold Blockchain.executeScript, call. cbn [run Emulator.backend].
    unfold Emulator.executeScript.
    destruct (Emulator.run_script rt _ _ _ _) as [o lines]. cbn.
    eexists. split; [reflexivity|]. split; [apply script_result_wf|].
    by destruct o.
  - unfold Blockchain.executeNextTransaction, call. cbn [run Emulator.backend].
    unfold Emulator.executeNextTransaction.
    destruct (Emulator.queue s) as [|tx rest]; cbn.
    + eexists. split; [reflexivity | done].
    + eexists. split; [reflexivity|]. intros r [= <-].
      apply transaction_result_wf.
  - intros tx r. rewrite run_executeTransaction.
    destruct (Emulator.commitBlock _) as [[[]|msg] s']; [|done].
    cbn [result]. intros [= <-].
    pose proof (batch_wf rt (Emulator.configuration s) (Emulator.ledger s)
                  (take 1 (Emulator.queue s ++ [tx]))) as Hwf.
    destruct (snd <$> Emulator.batch rt _ _ _) as [|r rs]; simpl.
    + apply (transaction_result_wf None).
    + by inversion Hwf.
  - intros txs rs. rewrite run_executeTransactions.
    destruct (Emulator.commitBlock _) as [[[]|msg] s']; [|done].
    cbn [result]. intros [= <-]. apply batch_wf.
  - intros r [[H1 _] [H2 _]]. congruence.
  - intros r [[H1 _] [H2 _]]. congruence.
Qed.

Lemma results_well_formed_witness :
  TransactionResult_wf (TransactionResult.init failed
                          (Some (Error.init "some error"))) ∧
  Forall TransactionResult_wf
    [TransactionResult.init succeeded None;
     TransactionResult.init failed (Some (Error.init "some error"))].
Proof.
  split.
  - exact (proj1 (proj2 (proj2 (results_well_formed Sample.toy Sample.genesis)))
             Sample.tx_panic _ eq_refl).
  - exact (proj1 (proj2 (proj2 (proj2
             (results_well_formed Sample.toy Sample.genesis))))
             [Sample.tx_ok; Sample.tx_panic] _ eq_refl).
Defined.

(** ** Events *)

(** C8.  On the emulator [eventsOfType(T)] returns the elements of
    [events()] whose type is [T], and only those, in the order [events()]
    has them: a subsequence of it.  Neither call changes the state. *)
Theorem eventsOfType_filters_events
    {L : Type} (rt : Emulator.Runtime L) (s : Emulator.State L) (T : Ty) :
  ∃ all : list Value,
    run (Emulator.backend rt) Blockchain.events s
    = outcome (Ok all) s [Events None] ∧
    run (Emulator.backend rt) (Blockchain.eventsOfType T) s
    = outcome (Ok (filter (λ e, getType e = T) all)) s [Events (Some T)] ∧
    filter (λ e, getType e = T) all `sublist_of` all ∧
    (∀ e, e ∈ filter (λ e, getType e = T) all ↔ e ∈ all ∧ getType e = T).
Proof.
  exists (Emulator.emitted s).
  split; [reflexivity|]. split; [reflexivity|].
  split; [apply sublist_filter|].
  intros e. rewrite list_elem_of_filter. tauto.
Qed.

(** ** The documentation's scenarios on the emulator *)

(** "This may fail if the current block contains transactions that have not
    being executed yet": with a transaction left to execute,
    [executeTransaction] executes that one and its commit fails. *)
Lemma executeTransaction_stale_block
    {L : Type} (rt : Emulator.Runtime L) (s : Emulator.State L)
    (tx : Transaction.t) :
  Emulator.queue s ≠ [] →
  result (run (Emulator.backend rt) (Blockchain.executeTransaction tx) s)
  = Abort (BackendFailure "pending block cannot be committed before execution").
Proof.
  intros Hq. rewrite run_executeTransaction. unfold Emulator.commitBlock.
  destruct (drain_fields rt 1 (Emulator.enqueue [tx] s)) as (_ & _ & Hd & _).
  rewrite Hd. cbn [Emulator.queue Emulator.enqueue].
  destruct (Emulator.queue s) as [|old rest]; [done|].
  simpl. by destruct rest.
Qed.

Example events_after_batch :
  let s := final (run (Emulator.backend Sample.toy)
                    (Blockchain.executeTransactions
                       [Sample.tx_ok; Sample.tx_panic; Sample.tx_ok])
                    Sample.genesis) in
  result (run (Emulator.backend Sample.toy) Blockchain.events s)
  = Ok [VComposite "A.01cf0e2f2f715450.Foo.Executed" [("n", VInteger Int 0)];
        VComposite "flow.TransactionFailed" [];
        VComposite "A.01cf0e2f2f715450.Foo.Executed" [("n", VInteger Int 1)]] ∧
  result (run (Emulator.backend Sample.toy)
            (Blockchain.eventsOfType
               (TComposite "A.01cf0e2f2f715450.Foo.Executed")) s)
  = Ok [VComposite "A.01cf0e2f2f715450.Foo.Executed" [("n", VInteger Int 0)];
        VComposite "A.01cf0e2f2f715450.Foo.Executed" [("n", VInteger Int 1)]].
Proof. split; reflexivity. Qed.

Example assertEqual_examples :
  Test.assertEqual (VString "this string") (VString "this string") = Ok tt ∧
  Test.assertEqual (VInteger Int 21) (VInteger Int 21) = Ok tt ∧
  Test.assertEqual
    (VArray (TInteger Int) [VInteger Int 1; VInteger Int 2; VInteger Int 3])
    (VArray (TInteger Int) [VInteger Int 1; VInteger Int 2; VInteger Int 3])
  = Ok tt ∧
  Test.assertEqual (VComposite "Foo" [("answer", VInteger Int 42)])
                   (VComposite "Foo" [("answer", VInteger Int 42)]) = Ok tt ∧
  Test.assertEqual (VInteger Int64 100) (VInteger UInt64 100)
  = Abort (NotEqual (VInteger Int64 100) (VInteger UInt64 100)).
Proof. repeat split; reflexivity. Qed.

(** * Further properties of the published code *)

(** ** The algebra of [Matcher.and] and [Matcher.or] *)

Section MatcherAlgebra.
Context {W : Type}.
Implicit Types (v : Value) (w : W).

(** X1.  When the test of the left matcher is false, [and] is false with
    the world the left test left behind, whatever the right matcher is:
    the right test function is not evaluated. *)
Theorem Matcher_and_short_circuit (m1 : Matcher.t W) v w w1 :
  Matcher.test m1 v w = (Ok false, w1) →
  ∀ other, Matcher.test (Matcher.and m1 other) v w = (Ok false, w1).
Proof.
  intros H1 other. simpl. unfold eval_and, eval_bind. by rewrite H1.
Qed.

(** X2.  A failure of the left test aborts [and] and [or] alike, with that
    failure and without evaluating the right test; when the left test does
    not decide, the combined test is the right test, run in the world the
    left one left behind, failures included. *)
Theorem Matcher_failure_propagates (m1 m2 : Matcher.t W) v w w1 :
  (∀ e, Matcher.test m1 v w = (Abort e, w1) →
        ∀ other,
          Matcher.test (Matcher.and m1 other) v w = (Abort e, w1) ∧
          Matcher.test (Matcher.or m1 other) v w = (Abort e, w1)) ∧
  (Matcher.test m1 v w = (Ok true, w1) →
   Matcher.test (Matcher.and m1 m2) v w = Matcher.test m2 v w1) ∧
  (Matcher.test m1 v w = (Ok false, w1) →
   Matcher.test (Matcher.or m1 m2) v w = Matcher.test m2 v w1).
Proof.
  split; [|split].
  - intros e H1 other. simpl. unfold eval_and, eval_or, eval_bind.
    by rewrite H1.
  - intros H1. simpl. unfold eval_and, eval_bind. by rewrite H1.
  - intros H1. simpl. unfold eval_or, eval_bind. by rewrite H1.
Qed.

(** X3.  [and] and [or] are associative, as evaluations: in every world
    the two groupings return the same result or the same failure and leave
    the same world, also for test functions with effects. *)
Theorem Matcher_combinators_associative (m1 m2 m3 : Matcher.t W) v w :
  Matcher.test (Matcher.and (Matcher.and m1 m2) m3) v w
  = Matcher.test (Matcher.and m1 (Matcher.and m2 m3)) v w ∧
  Matcher.test (Matcher.or (Matcher.or m1 m2) m3) v w
  = Matcher.test (Matcher.or m1 (Matcher.or m2 m3)) v w.
Proof.
  split; simpl; unfold eval_and, eval_or, eval_bind, eval_ret.
  - destruct (Matcher.test m1 v w) as [[[]|e] w1]; [|done..].
    by destruct (Matcher.test m2 v w1) as [[[]|e] w2].
  - destruct (Matcher.test m1 v w) as [[[]|e] w1]; [done| |done].
    by destruct (Matcher.test m2 v w1) as [[[]|e] w2].
Qed.

Lemma decides_and_or (m1 m2 : Matcher.t W) (p1 p2 : Value → bool) :
  decides m1 p1 → decides m2 p2 →
  decides (Matcher.and m1 m2) (λ v, p1 v && p2 v) ∧
  decides (Matcher.or m1 m2) (λ v, p1 v || p2 v).
Proof.
  intros H1 H2. split; intros v w; simpl;
    unfold eval_and, eval_or, eval_bind, eval_ret; rewrite H1;
    destruct (p1 v); simpl; by rewrite ?H2.
Qed.

(** X4.  Combining two matchers that decide predicates without effects
    gives a matcher that decides their conjunction, respectively their
    disjunction, without effects. *)
Theorem Matcher_combinators_decide (m1 m2 : Matcher.t W) (p1 p2 : Value → bool) :
  decides m1 p1 → decides m2 p2 →
  decides (Matcher.and m1 m2) (λ v, p1 v && p2 v) ∧
  decides (Matcher.or m1 m2) (λ v, p1 v || p2 v).
Proof. apply decides_and_or. Qed.

(** X5.  On matchers that decide predicates without effects, [and] and
    [or] commute, distribute over each other and absorb each other. *)
Theorem Matcher_boolean_laws (m1 m2 m3 : Matcher.t W) (p1 p2 p3 : Value → bool) v w :
  decides m1 p1 → decides m2 p2 → decides m3 p3 →
  Matcher.test (Matcher.and m1 m2) v w = Matcher.test (Matcher.and m2 m1) v w ∧
  Matcher.test (Matcher.or m1 m2) v w = Matcher.test (Matcher.or m2 m1) v w ∧
  Matcher.test (Matcher.and m1 (Matcher.or m2 m3)) v w
  = Matcher.test (Matcher.or (Matcher.and m1 m2) (Matcher.and m1 m3)) v w ∧
  Matcher.test (Matcher.or m1 (Matcher.and m2 m3)) v w
  = Matcher.test (Matcher.and (Matcher.or m1 m2) (Matcher.or m1 m3)) v w ∧
  Matcher.test (Matcher.or m1 (Matcher.and m1 m2)) v w = Matcher.test m1 v w ∧
  Matcher.test (Matcher.and m1 (Matcher.or m1 m2)) v w = Matcher.test m1 v w.
Proof.
  intros H1 H2 H3.
  pose proof (decides_and_or m1 m2 p1 p2 H1 H2) as [Ha12 Ho12].
  pose proof (decides_and_or m2 m1 p2 p1 H2 H1) as [Ha21 Ho21].
  pose proof (decides_and_or m1 m3 p1 p3 H1 H3) as [Ha13 Ho13].
  pose proof (decides_and_or m2 m3 p2 p3 H2 H3) as [Ha23 Ho23].
  pose proof (decides_and_or _ _ _ _ H1 Ho23) as [Ha1o _].
  pose proof (decides_and_or _ _ _ _ Ha12 Ha13) as [_ Hoaa].
  pose proof (decides_and_or _ _ _ _ H1 Ha23) as [_ Ho1a].
  pose proof (decides_and_or _ _ _ _ Ho12 Ho13) as [Haoo _].
  pose proof (decides_and_or _ _ _ _ H1 Ha12) as [_ Habs1].
  pose proof (decides_and_or _ _ _ _ H1 Ho12) as [Habs2 _].
  rewrite Ha12, Ha21, Ho12, Ho21, Ha1o, Hoaa, Ho1a, Haoo, Habs1, Habs2, H1.
  destruct (p1 v), (p2 v), (p3 v); done.
Qed.

Lemma customMatcherUntyped_test (v : Value) (w : W) :
  Matcher.test customMatcherUntyped v w
  = (Ok match v with VInteger Int n => 5 <? n | _ => false end, w).
Proof.
  unfold customMatcherUntyped. cbn [Matcher.test].
  destruct v as [b|x|k n|a| |x|t xs|i fs]; try reflexivity.
  by destruct k.
Qed.

(** X6.  The test function of [testCustomMatcherUntyped] never fails: the
    force-cast is reached only for an [Int]; it answers whether the value
    is an [Int] greater than 5 and has no effect. *)
Theorem customMatcherUntyped_decides :
  decides (W := W) customMatcherUntyped
    (λ v, match v with VInteger Int n => 5 <? n | _ => false end).
Proof. intros v w. apply customMatcherUntyped_test. Qed.

End MatcherAlgebra.

Lemma Matcher_and_short_circuit_witness :
  Matcher.test (Matcher.and Sample.sevenOrMore Sample.panicking)
               (VInteger Int 3) 0%nat
  = (Ok false, 1%nat).
Proof.
  exact (Matcher_and_short_circuit Sample.sevenOrMore (VInteger Int 3)
           0%nat 1%nat eq_refl Sample.panicking).
Defined.

Lemma Matcher_failure_propagates_witness :
  Matcher.test (Matcher.or Sample.panicking Sample.sevenOrMore)
               (VInteger Int 8) 0%nat
  = (Abort (Panic "evaluated"), 1%nat) ∧
  Matcher.test (Matcher.and Sample.sevenOrMore Sample.panicking)
               (VInteger Int 8) 0%nat
  = (Abort (Panic "evaluated"), 2%nat).
Proof.
  split.
  - exact (proj2 (proj1 (Matcher_failure_propagates Sample.panicking
                           Sample.sevenOrMore (VInteger Int 8) 0%nat 1%nat)
                    (Panic "evaluated") eq_refl Sample.sevenOrMore)).
  - exact (proj1 (proj2 (Matcher_failure_propagates Sample.sevenOrMore
                           Sample.panicking (VInteger Int 8) 0%nat 1%nat))
                 eq_refl).
Defined.

Lemma Matcher_combinators_decide_witness :
  decides (W := nat) (Matcher.and customMatcherUntyped customMatcherUntyped)
    (λ v, match v with VInteger Int n => 5 <? n | _ => false end
          && match v with VInteger Int n => 5 <? n | _ => false end).
Proof.
  exact (proj1 (Matcher_combinators_decide customMatcherUntyped
                  customMatcherUntyped _ _
                  customMatcherUntyped_test customMatcherUntyped_test)).
Defined.

Lemma Matcher_boolean_laws_witness :
  Matcher.test (W := nat)
    (Matcher.or customMatcherUntyped
       (Matcher.and customMatcherUntyped customMatcherUntyped))
    (VInteger Int 8) 0%nat
  = Matcher.test customMatcherUntyped (VInteger Int 8) 0%nat.
Proof.
  exact (proj1 (proj2 (proj2 (proj2 (proj2
           (Matcher_boolean_laws customMatcherUntyped customMatcherUntyped
              customMatcherUntyped _ _ _ (VInteger Int 8) 0%nat
              customMatcherUntyped_test customMatcherUntyped_test
              customMatcherUntyped_test)))))).
Defined.

(** ** [executeTransaction] and [executeTransactions] over any backend *)

Section FacadeSteps.
Context {S : Type} (h : Backend S).
Implicit Types (s : S) (tx : Transaction.t) (txs : list Transaction.t).

Local Abbreviation add_all txs :=
  (forIn txs (λ tx _, Blockchain.addTransaction tx) tt).
Local Abbreviation collect_all txs acc :=
  (forIn txs
     (λ _ results,
        txResult ← Blockchain.executeNextTransaction ≫= unwrap;
        mret (results ++ [txResult])) acc).

Lemma run_commitBlock_any s :
  run h Blockchain.commitBlock s =
  match h CommitBlock s with
  | (Returns _, s') => outcome (Ok tt) s' [CommitBlock]
  | (Fails msg, s') => outcome (Abort (BackendFailure msg)) s' [CommitBlock]
  end.
Proof.
  unfold Blockchain.commitBlock, call. cbn [run].
  by destruct (h CommitBlock s) as [[[]|msg] s'].
Qed.

(** The three stages of [executeTransactions]. *)
Lemma run_executeTransactions_stages txs s :
  run h (Blockchain.executeTransactions txs) s =
  match result (run h (add_all txs) s) with
  | Abort e =>
      outcome (Abort e) (final (run h (add_all txs) s))
        (calls (run h (add_all txs) s))
  | Ok _ =>
      let c := run h (collect_all txs []) (final (run h (add_all txs) s)) in
      match result c with
      | Abort e =>
          outcome (Abort e) (final c) (calls (run h (add_all txs) s) ++ calls c)
      | Ok rs =>
          match h CommitBlock (final c) with
          | (Returns _, s') =>
              outcome (Ok rs) s'
                (calls (run h (add_all txs) s) ++ calls c ++ [CommitBlock])
          | (Fails msg, s') =>
              outcome (Abort (BackendFailure msg)) s'
                (calls (run h (add_all txs) s) ++ calls c ++ [CommitBlock])
          end
      end
  end.
Proof.
  unfold Blockchain.executeTransactions. rewrite run_bind.
  destruct (result (run h (add_all txs) s)) as [[]|e]; [|done].
  cbn zeta. rewrite run_bind.
  destruct (result (run h (collect_all txs []) _)) as [rs|e]; [|done].
  cbn zeta. rewrite run_bind, run_commitBlock_any.
  by destruct (h CommitBlock _) as [[[]|msg] s'].
Qed.

(** X7.  On the empty array [executeTransactions] adds and executes
    nothing and still commits the current block: it runs as [commitBlock]
    and returns the empty array when that succeeds. *)
Theorem executeTransactions_empty s :
  run h (Blockchain.executeTransactions []) s
  = outcome_map (λ _, []) (run h Blockchain.commitBlock s).
Proof.
  rewrite run_executeTransactions_stages, run_commitBlock_any. cbn.
  by destruct (h CommitBlock s) as [[[]|msg] s'].
Qed.

(** X8.  On a one-element array [executeTransactions] runs as
    [executeTransaction] on that element: the same calls, the same final
    state, the same failure, and the result in a one-element array. *)
Theorem executeTransactions_singleton tx s :
  run h (Blockchain.executeTransactions [tx]) s
  = outcome_map (λ r, [r]) (run h (Blockchain.executeTransaction tx) s).
Proof.
  unfold Blockchain.executeTransactions, Blockchain.executeTransaction,
    outcome_map.
  cbn. destruct (h (AddTransaction tx) s) as [[[]|msg] s1]; [|done].
  cbn. destruct (h ExecuteNextTransaction s1) as [[[r|]|msg] s2]; [|done..].
  cbn. by destruct (h CommitBlock s2) as [[[]|msg] s3].
Qed.

(** X9.  [executeTransaction] issues a prefix of the calls
    [addTransaction, executeNextTransaction, commitBlock]; it returns a
    result exactly when the three steps succeed in turn and the middle one
    answers that result; when the commit fails, the result of the executed
    transaction is lost and the failure of the commit is what comes out. *)
Theorem executeTransaction_returns_iff tx s :
  calls (run h (Blockchain.executeTransaction tx) s)
    `prefix_of` [AddTransaction tx; ExecuteNextTransaction; CommitBlock] ∧
  (∀ r s3,
     run h (Blockchain.executeTransaction tx) s
     = outcome (Ok r) s3 [AddTransaction tx; ExecuteNextTransaction; CommitBlock]
     ↔ ∃ s1 s2,
         h (AddTransaction tx) s = (Returns tt, s1) ∧
         h ExecuteNextTransaction s1 = (Returns (Some r), s2) ∧
         h CommitBlock s2 = (Returns tt, s3)) ∧
  (∀ r, result (run h (Blockchain.executeTransaction tx) s) = Ok r →
        calls (run h (Blockchain.executeTransaction tx) s)
        = [AddTransaction tx; ExecuteNextTransaction; CommitBlock]) ∧
  (∀ s1 s2 s3 r msg,
     h (AddTransaction tx) s = (Returns tt, s1) →
     h ExecuteNextTransaction s1 = (Returns (Some r), s2) →
     h CommitBlock s2 = (Fails msg, s3) →
     run h (Blockchain.executeTransaction tx) s
     = outcome (Abort (BackendFailure msg)) s3
         [AddTransaction tx; ExecuteNextTransaction; CommitBlock]).
Proof.
  unfold Blockchain.executeTransaction. cbn.
  destruct (h (AddTransaction tx) s) as [[[]|msg1] s1] eqn:E1; cbn.
  2:{ split; [by eexists|]. split; [|split]; [|done|done].
      intros r s3. split; [done | by intros (? & ? & ? & _)]. }
  destruct (h ExecuteNextTransaction s1) as [[[r1|]|msg2] s2] eqn:E2; cbn.
  2,3: split; [by eexists|]; (split; [|split]; [|done|]);
       [ intros r s3; split; [done|];
         intros (s1' & s2' & [= <-] & H2 & _); rewrite E2 in H2; done
       | intros s1' s2' s3 r msg [= <-] H2; rewrite E2 in H2; done ].
  destruct (h CommitBlock s2) as [[[]|msg3] s3'] eqn:E3; cbn.
  - split; [done|]. split; [|split]; [|done|].
    + intros r s3. split.
      * intros [= <- <-]. eauto.
      * intros (s1' & s2' & [= <-] & H2 & H3). rewrite E2 in H2.
        injection H2 as <- <-. rewrite E3 in H3. by injection H3 as <-.
    + intros s1' s2' s3 r msg [= <-] H2. rewrite E2 in H2.
      injection H2 as <- <-. rewrite E3. done.
  - split; [done|]. split; [|split]; [|done|].
    + intros r s3. split; [done|].
      intros (s1' & s2' & [= <-] & H2 & H3). rewrite E2 in H2.
      injection H2 as <- <-. rewrite E3 in H3. done.
    + intros s1' s2' s3 r msg [= <-] H2. rewrite E2 in H2.
      injection H2 as <- <-. rewrite E3. by intros [= <- <-].
Qed.

End FacadeSteps.

Lemma executeTransaction_returns_iff_witness :
  run (Emulator.backend Sample.toy)
    (Blockchain.executeTransaction Sample.tx_panic)
    (Emulator.enqueue [Sample.tx_ok] Sample.genesis)
  = outcome
      (Abort (BackendFailure
                "pending block cannot be committed before execution"))
      (Emulator.state 1 (Configuration.init ∅) []
         [(Sample.tx_ok, TransactionResult.init succeeded None)]
         [Sample.tx_panic]
         [VComposite "A.01cf0e2f2f715450.Foo.Executed" [("n", VInteger Int 0)]]
         ["executed"])
      [AddTransaction Sample.tx_panic; ExecuteNextTransaction; CommitBlock].
Proof.
  exact (proj2 (proj2 (proj2 (executeTransaction_returns_iff
           (Emulator.backend Sample.toy) Sample.tx_panic
           (Emulator.enqueue [Sample.tx_ok] Sample.genesis)))) _ _ _ _ _
           eq_refl eq_refl eq_refl).
Defined.

Section FacadeOrder.
Context {S : Type} (h : Backend S).
Implicit Types (s : S) (tx : Transaction.t) (txs : list Transaction.t).

Local Abbreviation add_all txs :=
  (forIn txs (λ tx _, Blockchain.addTransaction tx) tt).
Local Abbreviation collect_all txs acc :=
  (forIn txs
     (λ _ results,
        txResult ← Blockchain.executeNextTransaction ≫= unwrap;
        mret (results ++ [txResult])) acc).

Lemma elem_of_prefix (c : Call) (l k : list Call) :
  c ∈ l → l `prefix_of` k → c ∈ k.
Proof. intros Hc [r ->]. apply elem_of_app. by left. Qed.

Lemma commit_not_added txs : CommitBlock ∉ AddTransaction <$> txs.
Proof. intros (tx & [=] & _)%list_elem_of_fmap. Qed.

Lemma next_not_added txs : ExecuteNextTransaction ∉ AddTransaction <$> txs.
Proof. intros (tx & [=] & _)%list_elem_of_fmap. Qed.

Lemma commit_not_executed (n : nat) :
  CommitBlock ∉ replicate n ExecuteNextTransaction.
Proof. intros [[=] _]%elem_of_replicate. Qed.

(** X10.  [executeTransactions] never commits a batch it did not execute
    in full, and never executes before it has added every transaction: if
    [commitBlock] was called, the calls are the whole batch sequence; if
    [executeNextTransaction] was called, every [addTransaction] came
    before; and a run that ends in the force-unwrap of [nil] has not
    called [commitBlock]. *)
Theorem executeTransactions_commits_last txs s :
  (CommitBlock ∈ calls (run h (Blockchain.executeTransactions txs) s) →
   calls (run h (Blockchain.executeTransactions txs) s) = batch_calls txs) ∧
  (ExecuteNextTransaction ∈ calls (run h (Blockchain.executeTransactions txs) s) →
   (AddTransaction <$> txs)
     `prefix_of` calls (run h (Blockchain.executeTransactions txs) s)) ∧
  (result (run h (Blockchain.executeTransactions txs) s) = Abort ForceUnwrapNil →
   CommitBlock ∉ calls (run h (Blockchain.executeTransactions txs) s)).
Proof.
  rewrite run_executeTransactions_stages.
  destruct (calls_add_all h txs s) as [Ha_pre Ha_all].
  destruct (result (run h (add_all txs) s)) as [[]|e]; cbn [calls result].
  2:{ split; [|split].
      - intros Hc. destruct (commit_not_added txs).
        by apply (elem_of_prefix _ _ _ Hc).
      - intros Hc. destruct (next_not_added txs).
        by apply (elem_of_prefix _ _ _ Hc).
      - intros _ Hc. destruct (commit_not_added txs).
        by apply (elem_of_prefix _ _ _ Hc). }
  rewrite (Ha_all eq_refl). cbn zeta.
  destruct (calls_collect h txs [] (final (run h (add_all txs) s)))
    as [Hc_pre Hc_all]. cbn zeta in Hc_pre, Hc_all.
  destruct (result (run h (collect_all txs []) _)) as [rs|e];
    cbn [calls result].
  2:{ assert (Hno : CommitBlock ∉
                (AddTransaction <$> txs) ++
                calls (run h (collect_all txs [])
                         (final (run h (add_all txs) s)))).
      { intros [Hc|Hc]%elem_of_app; [by destruct (commit_not_added txs)|].
        destruct (commit_not_executed (length txs)).
        by apply (elem_of_prefix _ _ _ Hc). }
      split; [done|]. split; [|done].
      intros _. by apply prefix_app_r. }
  rewrite (Hc_all eq_refl).
  destruct (h CommitBlock _) as [[[]|msg] s']; cbn [calls result];
    (split; [done|]); (split; [intros _; by apply prefix_app_r | done]).
Qed.

Lemma answers_bind {A B} (p : Prog A) (f : A → Prog B) s :
  answers h (p ≫= f) s =
  match result (run h p s) with
  | Ok a => answers h p s ++ answers h (f a) (final (run h p s))
  | Abort _ => answers h p s
  end.
Proof.
  revert s. induction p as [a|e|c k IH]; intros s; [done..|].
  change (Invoke c k ≫= f) with (Invoke c (λ x, k x ≫= f)).
  cbn [answers run]. destruct (h c s) as [[x|msg] s']; [|done].
  rewrite IH. cbn [result final].
  destruct (result (run h (k x) s')); [by rewrite app_assoc | done].
Qed.

Lemma answers_addTransaction tx s :
  answers h (Blockchain.addTransaction tx) s = [].
Proof.
  unfold Blockchain.addTransaction, call. cbn [answers].
  by destruct (h (AddTransaction tx) s) as [[[]|msg] s'].
Qed.

Lemma answers_add_all txs s : answers h (add_all txs) s = [].
Proof.
  revert s. induction txs as [|tx txs IH]; intros s; [done|].
  cbn [forIn]. rewrite answers_bind, answers_addTransaction.
  destruct (result (run h (Blockchain.addTransaction tx) s)) as [[]|e];
    [|done].
  apply IH.
Qed.

Lemma answers_collect_all {A} (l : list A) acc s rs :
  result (run h (forIn l
                   (λ _ results,
                      txResult ← Blockchain.executeNextTransaction ≫= unwrap;
                      mret (results ++ [txResult])) acc) s) = Ok rs →
  ∃ new,
    rs = acc ++ new ∧
    answers h (forIn l
                 (λ _ results,
                    txResult ← Blockchain.executeNextTransaction ≫= unwrap;
                    mret (results ++ [txResult])) acc) s = Some <$> new.
Proof.
  revert acc s. induction l as [|x l IH]; intros acc s.
  - simpl. intros [= <-]. exists []. by rewrite app_nil_r.
  - cbn [forIn]. rewrite run_bind, answers_bind, run_collect_step.
    assert (Hstep :
      answers h (txResult ← Blockchain.executeNextTransaction ≫= unwrap;
                 mret (acc ++ [txResult])) s
      = match h ExecuteNextTransaction s with
        | (Returns o, _) => [o]
        | (Fails _, _) => []
        end).
    { cbn. by destruct (h ExecuteNextTransaction s) as [[[r|]|msg] s']. }
    rewrite Hstep.
    destruct (h ExecuteNextTransaction s) as [[[r|]|msg] s'];
      cbn [result final]; [|done..].
    cbn zeta. cbn [result]. intros H.
    destruct (IH _ _ H) as (new & -> & ->).
    exists (r :: new). split; [by rewrite <- app_assoc | done].
Qed.

(** X11.  What [executeTransactions] returns is what the backend answered
    to its [executeNextTransaction] calls, unchanged and in the order of
    the calls; likewise the result of [executeTransaction] is the one
    answer of the backend. *)
Theorem results_are_backend_answers :
  (∀ txs s rs,
     result (run h (Blockchain.executeTransactions txs) s) = Ok rs →
     answers h (Blockchain.executeTransactions txs) s = Some <$> rs) ∧
  (∀ tx s r,
     result (run h (Blockchain.executeTransaction tx) s) = Ok r →
     answers h (Blockchain.executeTransaction tx) s = [Some r]).
Proof.
  split.
  - intros txs s rs. unfold Blockchain.executeTransactions.
    rewrite run_bind, answers_bind, answers_add_all.
    destruct (result (run h (add_all txs) s)) as [[]|e]; [|done].
    cbn zeta. cbn [result]. rewrite run_bind, answers_bind.
    destruct (result (run h (collect_all txs []) _)) as [rs'|e] eqn:E; [|done].
    destruct (answers_collect_all _ _ _ _ E) as (new & -> & ->).
    cbn zeta. cbn [result]. rewrite run_bind, answers_bind.
    rewrite run_commitBlock_any.
    assert (Hc : ∀ s', answers h Blockchain.commitBlock s' = []).
    { intros s'. unfold Blockchain.commitBlock, call. cbn [answers].
      by destruct (h CommitBlock s') as [[[]|msg] s'']. }
    rewrite Hc.
    destruct (h CommitBlock _) as [[[]|msg] s']; cbn [result]; [|done].
    cbn. intros [= <-]. by rewrite !app_nil_r.
  - intros tx s r. unfold Blockchain.executeTransaction. cbn.
    destruct (h (AddTransaction tx) s) as [[[]|msg] s1]; [|done].
    cbn. destruct (h ExecuteNextTransaction s1) as [[[r1|]|msg] s2]; [|done..].
    cbn. destruct (h CommitBlock s2) as [[[]|msg] s3]; [|done].
    cbn. by intros [= <-].
Qed.

End FacadeOrder.

Lemma executeTransactions_commits_last_witness :
  CommitBlock ∉
    calls (run Sample.idle
             (Blockchain.executeTransactions [Sample.tx_ok; Sample.tx_panic])
             0%nat).
Proof.
  exact (proj2 (proj2 (executeTransactions_commits_last Sample.idle
                         [Sample.tx_ok; Sample.tx_panic] 0%nat)) eq_refl).
Defined.

Lemma results_are_backend_answers_witness :
  answers (Emulator.backend Sample.toy)
    (Blockchain.executeTransactions [Sample.tx_ok; Sample.tx_panic])
    Sample.genesis
  = [Some (TransactionResult.init succeeded None);
     Some (TransactionResult.init failed (Some (Error.init "some error")))].
Proof.
  exact (proj1 (results_are_backend_answers (Emulator.backend Sample.toy))
           [Sample.tx_ok; Sample.tx_panic] Sample.genesis _ eq_refl).
Defined.

(** ** A block with transactions left to execute *)

(** X12.  "This may fail if the current block contains transactions that
    have not being executed yet": on the emulator, when a transaction is
    left to execute, [executeTransaction(tx)] executes that oldest
    transaction in place of [tx], its commit fails, nothing is committed
    and [tx] stays in the block, unexecuted; [executeTransactions] fails at
    its commit in the same way. *)
Theorem stale_block_fails_commit
    {L : Type} (rt : Emulator.Runtime L) (s : Emulator.State L)
    (old : Transaction.t) (rest : list Transaction.t) :
  Emulator.queue s = old :: rest →
  (∀ tx,
     let o := run (Emulator.backend rt) (Blockchain.executeTransaction tx) s in
     result o
     = Abort (BackendFailure
                "pending block cannot be committed before execution") ∧
     Emulator.queue (final o) = rest ++ [tx] ∧
     Emulator.executed (final o)
     = Emulator.executed s ++
       [(old, Emulator.transaction_result
                (Emulator.failure
                   (Emulator.run_transaction rt old (Emulator.configuration s)
                      (Emulator.ledger s))))] ∧
     Emulator.committed (final o) = Emulator.committed s) ∧
  (∀ txs,
     let o := run (Emulator.backend rt) (Blockchain.executeTransactions txs) s in
     result o
     = Abort (BackendFailure
                "pending block cannot be committed before execution") ∧
     Emulator.queue (final o) = drop (length txs) ((old :: rest) ++ txs) ∧
     Emulator.committed (final o) = Emulator.committed s).
Proof.
  intros Hq. split.
  - intros tx o. subst o. rewrite run_executeTransaction.
    unfold Emulator.commitBlock.
    destruct (drain_fields rt 1 (Emulator.enqueue [tx] s))
      as (_ & Hc & Hd & He).
    cbn [Emulator.queue Emulator.enqueue Emulator.committed
         Emulator.executed Emulator.configuration Emulator.ledger] in Hc, Hd, He.
    rewrite Hq in Hd, He. cbn [app drop take Emulator.batch] in Hd, He.
    rewrite ?drop_0 in Hd.
    rewrite Hd. destruct (rest ++ [tx]) as [|y ys] eqn:Hr.
    { by destruct rest. }
    cbn [result final]. by rewrite Hd, Hc, He.
  - intros txs o. subst o. rewrite run_executeTransactions.
    unfold Emulator.commitBlock.
    destruct (drain_fields rt (length txs) (Emulator.enqueue txs s))
      as (_ & Hc & Hd & _).
    cbn [Emulator.queue Emulator.enqueue Emulator.committed] in Hc, Hd.
    rewrite Hq in Hd. rewrite Hd.
    destruct (drop (length txs) ((old :: rest) ++ txs)) as [|y ys] eqn:Hr.
    { apply drop_all_app in Hr. discriminate. }
    cbn [result final]. by rewrite Hd, Hc.
Qed.

Lemma stale_block_fails_commit_witness :
  let o := run (Emulator.backend Sample.toy)
             (Blockchain.executeTransaction Sample.tx_panic)
             (Emulator.enqueue [Sample.tx_ok] Sample.genesis) in
  result o
  = Abort (BackendFailure "pending block cannot be committed before execution") ∧
  Emulator.queue (final o) = [Sample.tx_panic] ∧
  Emulator.executed (final o)
  = [(Sample.tx_ok, TransactionResult.init succeeded None)] ∧
  Emulator.committed (final o) = [].
Proof.
  exact (proj1 (stale_block_fails_commit Sample.toy
                  (Emulator.enqueue [Sample.tx_ok] Sample.genesis)
                  Sample.tx_ok [] eq_refl) Sample.tx_panic).
Defined.

(** ** The force-unwrap of the answers *)

Section ForceUnwrap.
Context {S : Type} (h : Backend S).
Implicit Types (s : S) (tx : Transaction.t) (txs : list Transaction.t).

Local Abbreviation add_all txs :=
  (forIn txs (λ tx _, Blockchain.addTransaction tx) tt).
Local Abbreviation collect_all txs acc :=
  (forIn txs
     (λ _ results,
        txResult ← Blockchain.executeNextTransaction ≫= unwrap;
        mret (results ++ [txResult])) acc).

(** Adding transactions unwraps nothing. *)
Lemma add_all_never_unwraps txs s :
  result (run h (add_all txs) s) ≠ Abort ForceUnwrapNil.
Proof.
  revert s. induction txs as [|tx txs IH]; intros s; [done|].
  cbn [forIn]. rewrite run_bind, run_addTransaction.
  destruct (h (AddTransaction tx) s) as [[[]|msg] s1]; [|done].
  cbn [result final]. cbn zeta. cbn [result]. apply IH.
Qed.

(** The collecting loop aborts at the unwrap exactly when one of its
    [executeNextTransaction] calls, at whatever iteration, was answered
    [nil]. *)
Lemma collect_unwraps_iff {A} (l : list A) acc s :
  None ∈ answers h (forIn l
                      (λ _ results,
                         txResult ← Blockchain.executeNextTransaction ≫= unwrap;
                         mret (results ++ [txResult])) acc) s
  ↔ result (run h (forIn l
                     (λ _ results,
                        txResult ← Blockchain.executeNextTransaction ≫= unwrap;
                        mret (results ++ [txResult])) acc) s)
    = Abort ForceUnwrapNil.
Proof.
  revert acc s. induction l as [|x l IH]; intros acc s.
  - simpl. split; [by intros ?%elem_of_nil | done].
  - cbn [forIn]. rewrite run_bind, answers_bind, run_collect_step.
    assert (Hstep :
      answers h (txResult ← Blockchain.executeNextTransaction ≫= unwrap;
                 mret (acc ++ [txResult])) s
      = match h ExecuteNextTransaction s with
        | (Returns o, _) => [o]
        | (Fails _, _) => []
        end).
    { cbn. by destruct (h ExecuteNextTransaction s) as [[[r|]|msg] s']. }
    rewrite Hstep.
    destruct (h ExecuteNextTransaction s) as [[[r|]|msg] s'];
      cbn [result final]; cbn zeta; cbn [result].
    + rewrite <- IH. cbn [app]. rewrite elem_of_cons.
      split; [by intros [|] | by right].
    + split; [done | intros _; apply elem_of_cons; by left].
    + split; [by intros ?%elem_of_nil | done].
Qed.

Lemma executeTransactions_unwraps_iff txs s :
  None ∈ answers h (Blockchain.executeTransactions txs) s
  ↔ result (run h (Blockchain.executeTransactions txs) s)
    = Abort ForceUnwrapNil.
Proof.
  unfold Blockchain.executeTransactions.
  rewrite run_bind, answers_bind, answers_add_all.
  pose proof (add_all_never_unwraps txs s) as Hadd.
  destruct (result (run h (add_all txs) s)) as [[]|e]; cbn [result].
  2:{ split; [by intros ?%elem_of_nil | congruence]. }
  cbn zeta. cbn [result app]. rewrite run_bind, answers_bind.
  pose proof (collect_unwraps_iff txs []
                (final (run h (add_all txs) s))) as Hiff.
  destruct (result (run h (collect_all txs []) _)) as [rs|e] eqn:E;
    cbn [result]; [|exact Hiff].
  cbn zeta. cbn [result]. rewrite run_bind, answers_bind, run_commitBlock_any.
  assert (Hc : ∀ s', answers h Blockchain.commitBlock s' = []).
  { intros s'. unfold Blockchain.commitBlock, call. cbn [answers].
    by destruct (h CommitBlock s') as [[[]|msg] s'']. }
  rewrite Hc.
  destruct (h CommitBlock _) as [[[]|msg] s']; cbn [result final answers];
    cbn zeta; cbn [result app]; rewrite ?app_nil_r;
    (split; [intros Hin; apply Hiff in Hin; discriminate | discriminate]).
Qed.

Lemma executeTransaction_unwraps_iff tx s :
  None ∈ answers h (Blockchain.executeTransaction tx) s
  ↔ result (run h (Blockchain.executeTransaction tx) s)
    = Abort ForceUnwrapNil.
Proof.
  unfold Blockchain.executeTransaction. cbn.
  destruct (h (AddTransaction tx) s) as [[[]|msg] s1]; cbn.
  2:{ split; [by intros ?%elem_of_nil | discriminate]. }
  destruct (h ExecuteNextTransaction s1) as [[[r|]|msg] s2]; cbn.
  - destruct (h CommitBlock s2) as [[[]|msg] s3]; cbn;
      (split; [|discriminate]); rewrite elem_of_cons;
      by intros [|?%elem_of_nil].
  - split; [done | intros _; apply elem_of_cons; by left].
  - split; [by intros ?%elem_of_nil | discriminate].
Qed.

(** A run of [executeTransactions] that ends in the unwrap has not called
    [commitBlock]. *)
Lemma unwrap_before_commit txs s :
  result (run h (Blockchain.executeTransactions txs) s) = Abort ForceUnwrapNil →
  CommitBlock ∉ calls (run h (Blockchain.executeTransactions txs) s).
Proof.
  rewrite run_executeTransactions_stages.
  destruct (calls_add_all h txs s) as [Ha_pre Ha_all].
  destruct (result (run h (add_all txs) s)) as [[]|e]; cbn [calls result].
  { rewrite (Ha_all eq_refl). cbn zeta.
    destruct (calls_collect h txs [] (final (run h (add_all txs) s)))
      as [Hc_pre _]. cbn zeta in Hc_pre.
    destruct (result (run h (collect_all txs []) _)) as [rs|e];
      cbn [calls result].
    - by destruct (h CommitBlock _) as [[[]|msg] s'].
    - intros _ [Hc|Hc]%elem_of_app; [by destruct (commit_not_added txs)|].
      destruct (commit_not_executed (length txs)).
      by apply (elem_of_prefix _ _ _ Hc). }
  intros _ Hc. destruct (commit_not_added txs).
  by apply (elem_of_prefix _ _ _ Hc).
Qed.

End ForceUnwrap.

(** C9.  [executeTransaction] and [executeTransactions] force-unwrap every
    answer of [executeNextTransaction]: they abort at the unwrap exactly
    when one of those answers, at whatever iteration, is [nil], and then
    before any commit and without returning anything; over a backend that
    keeps a pending block, where every preceding [addTransaction] enqueued
    a transaction, the unwrap never aborts; the emulator is such a
    backend. *)
Theorem force_unwrap_aborts_only_on_nil :
  (∀ (S : Type) (h : Backend S) (tx : Transaction.t) (s s1 s2 : S),
     h (AddTransaction tx) s = (Returns tt, s1) →
     h ExecuteNextTransaction s1 = (Returns None, s2) →
     run h (Blockchain.executeTransaction tx) s
     = outcome (Abort ForceUnwrapNil) s2
               [AddTransaction tx; ExecuteNextTransaction]) ∧
  (∀ (S : Type) (h : Backend S) (tx : Transaction.t)
     (txs : list Transaction.t) (s s2 : S),
     let added :=
       run h (forIn (tx :: txs) (λ tx _, Blockchain.addTransaction tx) tt) s in
     result added = Ok tt →
     h ExecuteNextTransaction (final added) = (Returns None, s2) →
     run h (Blockchain.executeTransactions (tx :: txs)) s
     = outcome (Abort ForceUnwrapNil) s2
               (calls added ++ [ExecuteNextTransaction])) ∧
  (∀ (S : Type) (h : Backend S) (pending : S → nat),
     keeps_pending_block h pending →
     ∀ s : S,
       (∀ tx, result (run h (Blockchain.executeTransaction tx) s)
              ≠ Abort ForceUnwrapNil) ∧
       (∀ txs, result (run h (Blockchain.executeTransactions txs) s)
               ≠ Abort ForceUnwrapNil)) ∧
  (∀ (L : Type) (rt : Emulator.Runtime L),
     keeps_pending_block (Emulator.backend rt)
       (λ s, length (Emulator.queue s)) ∧
     ∀ s : Emulator.State L,
       (∀ tx, result (run (Emulator.backend rt)
                        (Blockchain.executeTransaction tx) s)
              ≠ Abort ForceUnwrapNil) ∧
       (∀ txs, result (run (Emulator.backend rt)
                         (Blockchain.executeTransactions txs) s)
               ≠ Abort ForceUnwrapNil)) ∧
  (∀ (S : Type) (h : Backend S) (txs : list Transaction.t) (s : S),
     (None ∈ answers h (Blockchain.executeTransactions txs) s
      ↔ result (run h (Blockchain.executeTransactions txs) s)
        = Abort ForceUnwrapNil) ∧
     (None ∈ answers h (Blockchain.executeTransactions txs) s →
      CommitBlock ∉ calls (run h (Blockchain.executeTransactions txs) s))) ∧
  (∀ (S : Type) (h : Backend S) (tx : Transaction.t) (s : S),
     (None ∈ answers h (Blockchain.executeTransaction tx) s
      ↔ result (run h (Blockchain.executeTransaction tx) s)
        = Abort ForceUnwrapNil) ∧
     (None ∈ answers h (Blockchain.executeTransaction tx) s →
      calls (run h (Blockchain.executeTransaction tx) s)
      = [AddTransaction tx; ExecuteNextTransaction])).
Proof.
  split; [|split; [|split; [|split; [|split]]]].
  - intros S h tx s s1 s2. apply executeTransaction_traps.
  - intros S h tx txs s s2. apply executeTransactions_traps.
  - intros S h pending Hkeeps s. split.
    + intros tx. by apply (executeTransaction_no_trap h pending).
    + intros txs. by apply (executeTransactions_no_trap h pending).
  - intros L rt. split; [apply emulator_keeps_pending_block|].
    intros s. split.
    + intros tx.
      apply (executeTransaction_no_trap _ _ (emulator_keeps_pending_block rt)).
    + intros txs.
      apply (executeTransactions_no_trap _ _ (emulator_keeps_pending_block rt)).
  - intros S h txs s. split; [apply executeTransactions_unwraps_iff|].
    intros Hin. apply unwrap_before_commit.
    by apply executeTransactions_unwraps_iff.
  - intros S h tx s. split; [apply executeTransaction_unwraps_iff|].
    unfold Blockchain.executeTransaction. cbn.
    destruct (h (AddTransaction tx) s) as [[[]|msg] s1]; cbn;
      [|by intros ?%elem_of_nil].
    destruct (h ExecuteNextTransaction s1) as [[[r|]|msg] s2]; cbn;
      [|done|by intros ?%elem_of_nil].
    destruct (h CommitBlock s2) as [[[]|msg] s3]; cbn;
      rewrite elem_of_cons; by intros [|?%elem_of_nil].
Qed.

Lemma force_unwrap_aborts_only_on_nil_witness :
  run Sample.idle (Blockchain.executeTransaction Sample.tx_ok) 0%nat
  = outcome (Abort ForceUnwrapNil) 2%nat
            [AddTransaction Sample.tx_ok; ExecuteNextTransaction] ∧
  run Sample.idle
    (Blockchain.executeTransactions [Sample.tx_ok; Sample.tx_panic]) 0%nat
  = outcome (Abort ForceUnwrapNil) 3%nat
            [AddTransaction Sample.tx_ok; AddTransaction Sample.tx_panic;
             ExecuteNextTransaction] ∧
  result (run (Emulator.backend Sample.toy)
            (Blockchain.executeTransactions [Sample.tx_ok; Sample.tx_panic])
            Sample.genesis)
  ≠ Abort ForceUnwrapNil ∧
  answers Sample.once
    (Blockchain.executeTransactions [Sample.tx_ok; Sample.tx_panic]) false
  = [Some (TransactionResult.init succeeded None); None] ∧
  result (run Sample.once
            (Blockchain.executeTransactions [Sample.tx_ok; Sample.tx_panic])
            false)
  = Abort ForceUnwrapNil ∧
  CommitBlock ∉
    calls (run Sample.once
             (Blockchain.executeTransactions [Sample.tx_ok; Sample.tx_panic])
             false).
Proof.
  assert (Hnil : None ∈ answers Sample.once
                   (Blockchain.executeTransactions
                      [Sample.tx_ok; Sample.tx_panic]) false).
  { apply elem_of_cons. right. apply elem_of_cons. by left. }
  split; [|split; [|split; [|split; [|split]]]].
  - exact (proj1 force_unwrap_aborts_only_on_nil _ Sample.idle Sample.tx_ok
             0%nat 1%nat 2%nat eq_refl eq_refl).
  - exact (proj1 (proj2 force_unwrap_aborts_only_on_nil) _ Sample.idle
             Sample.tx_ok [Sample.tx_panic] 0%nat 3%nat eq_refl eq_refl).
  - apply (proj1 (proj2 (proj2 force_unwrap_aborts_only_on_nil))
             _ (Emulator.backend Sample.toy)
             (λ s, length (Emulator.queue s))
             (proj1 (proj1 (proj2 (proj2 (proj2
                       force_unwrap_aborts_only_on_nil))) _ Sample.toy))
             Sample.genesis).
  - reflexivity.
  - exact (proj1 (proj1 (proj1 (proj2 (proj2 (proj2 (proj2
             force_unwrap_aborts_only_on_nil))))
             _ Sample.once [Sample.tx_ok; Sample.tx_panic] false)) Hnil).
  - exact (proj2 (proj1 (proj2 (proj2 (proj2 (proj2
             force_unwrap_aborts_only_on_nil))))
             _ Sample.once [Sample.tx_ok; Sample.tx_panic] false) Hnil).
Defined.
